(** * scipipe: the single-task execution unit (task.go)

    A shallow embedding of [task.go]: the command formatter
    ([formatCommand]), task construction ([NewSciTask]) and the executor
    ([Execute] with its helpers), followed by the properties the
    specification states about them.

    - Go strings are byte strings and are modelled by [string].
    - Go maps are modelled by [gmap]; a [for ... range] loop over a map runs
      over [map_to_list], whose order, like Go's, is not specified.  A port
      mapped to a nil target is an absent port (the code tests [== nil]).
    - A Go panic is the [Panic] outcome of the [Result] type.
    - The file system is the set of the paths that exist; [os.Stat] succeeds
      on the paths of that set.
    - What [Execute] does to the channel [Done], the strategies it invokes
      and the targets it atomizes are recorded as events.
    - The loggers ([Debug], [Info], [Warning]) are left out. *)

From Stdlib Require Import Ascii String.
From stdpp Require Import base strings list gmap.

(** ** Outcomes of code that may panic *)

Inductive Result (A : Type) : Type :=
| Ok (a : A)
| Panic (msg : string).
Arguments Ok {A} a.
Arguments Panic {A} msg.

Global Instance Result_ret : MRet Result := λ A a, Ok a.
Global Instance Result_bind : MBind Result := λ A B k r,
  match r with
  | Ok a => k a
  | Panic msg => Panic msg
  end.

(** Modelled from the spec: the check-and-halt helper [Check] is not part of
    [task.go]; the specification describes it as the "abort on first error"
    helper, so a non-nil error halts the caller and a nil error is a
    no-op. *)
Definition Check (err : option string) : Result unit :=
  match err with
  | Some msg => Panic msg
  | None => Ok tt
  end.

(** ** The two functions of Go's [strings] and [fmt] packages that are used *)

Module GoStrings.

(** [fmt.Sprint] of string operands only: plain concatenation. *)
Definition Sprint (parts : list string) : string :=
  foldr String.append "" parts.

(** [Replace] for the empty [old]: Go inserts [new] at the start and after
    every character (the model is bytewise, which is Go's behaviour on
    ASCII text). *)
Fixpoint intersperse (new s : string) : string :=
  match s with
  | EmptyString => new
  | String c s' => new +:+ String c (intersperse new s')
  end.

(** Left-to-right replacement of the non-overlapping occurrences of a
    non-empty [old]; [skip] counts the bytes of the occurrence just
    replaced that are still to be passed over. *)
Fixpoint replaceFrom (old new : string) (skip : nat) (s : string) : string :=
  match s with
  | EmptyString => EmptyString
  | String c s' =>
      match skip with
      | S k => replaceFrom old new k s'
      | O =>
          if String.prefix old s
          then new +:+ replaceFrom old new (String.length old - 1) s'
          else String c (replaceFrom old new 0 s')
      end
  end.

(** [strings.Replace(s, old, new, -1)]. *)
Definition Replace (s old new : string) : string :=
  match old with
  | EmptyString => intersperse new s
  | String _ _ => replaceFrom old new 0 s
  end.

End GoStrings.

(** ** The placeholder regular expression *)

(** One element of the result of [FindAllStringSubmatch]: the matched text
    [m[0]] and the two capture groups [m[1]] (kind) and [m[2]] (name). *)
Record Submatch : Type := mkSubmatch { m0 : string; m1 : string; m2 : string }.

Global Instance Submatch_eq_dec : EqDecision Submatch.
Proof. solve_decision. Defined.

Module PlaceHolder.

(** What a left-to-right scan of a string yields: a plain character, or a
    placeholder token. *)
Inductive Item : Type :=
| Chr (c : ascii)
| Tok (m : Submatch).

(** The kinds, in the order of the alternation. *)
Definition kinds : list string := ["o"; "os"; "i"; "p"].

Definition isNameChar (c : ascii) : bool :=
  negb (Ascii.eqb c "{" || Ascii.eqb c "}" || Ascii.eqb c ":").

(** [s] without its prefix [p], when [p] is a prefix of [s]. *)
Fixpoint stripPrefix (p s : string) : option string :=
  match p, s with
  | EmptyString, _ => Some s
  | String a p', String b s' =>
      if Ascii.eqb a b then stripPrefix p' s' else None
  | String _ _, EmptyString => None
  end.

(** The longest run of name characters at the start of [s], and the rest. *)
Fixpoint spanName (s : string) : string * string :=
  match s with
  | EmptyString => (EmptyString, EmptyString)
  | String c s' =>
      if isNameChar c
      then let '(n, r) := spanName s' in (String c n, r)
      else (EmptyString, s)
  end.

(** The first kind of [ks] that, with its colon, starts [r]; and the text
    after the colon. *)
Fixpoint splitKind (ks : list string) (r : string) : option (string * string) :=
  match ks with
  | [] => None
  | k :: ks' =>
      match stripPrefix (k +:+ ":") r with
      | Some r' => Some (k, r')
      | None => splitKind ks' r
      end
  end.

(** A token that starts at the first character of [s], if there is one. *)
Definition matchHere (s : string) : option Submatch :=
  r ← stripPrefix "{" s;
  '(kind, r') ← splitKind kinds r;
  let '(name, r'') := spanName r' in
  if decide (name = "") then None
  else
    _ ← stripPrefix "}" r'';
    Some (mkSubmatch ("{" +:+ kind +:+ ":" +:+ name +:+ "}") kind name).

(** The scan: leftmost, non-overlapping tokens; [skip] counts the bytes of
    the token just found that are still to be passed over. *)
Fixpoint scanFrom (skip : nat) (s : string) : list Item :=
  match s with
  | EmptyString => []
  | String c s' =>
      match skip with
      | S k => scanFrom k s'
      | O =>
          match matchHere s with
          | Some m => Tok m :: scanFrom (String.length (m0 m) - 1) s'
          | None => Chr c :: scanFrom 0 s'
          end
      end
  end.

Definition scan (s : string) : list Item := scanFrom 0 s.

Definition tokens (items : list Item) : list Submatch :=
  omap (λ it, match it with Tok m => Some m | Chr _ => None end) items.

(** The text of a scan in which every token [m] is written as [f m]. *)
Fixpoint render (f : Submatch → string) (items : list Item) : string :=
  match items with
  | [] => EmptyString
  | Chr c :: items' => String c (render f items')
  | Tok m :: items' => f m +:+ render f items'
  end.

End PlaceHolder.

(** Modelled from the spec: [getShellCommandPlaceHolderRegex] is not part of
    [task.go].  The specification gives the tokens the shape
    [{<kind>:<name>}] with [<kind>] one of [i], [o], [os], [p]; the name is
    taken to be a non-empty run of characters other than the two braces and
    the colon.  [FindAllStringSubmatch] is the regular expression's
    [FindAllStringSubmatch(cmd, -1)]: all leftmost non-overlapping matches,
    in the order they occur. *)
Definition FindAllStringSubmatch (cmd : string) : list Submatch :=
  PlaceHolder.tokens (PlaceHolder.scan cmd).

(** ** File targets *)

(** The naming conventions of [FileTarget], which [task.go] uses but does
    not define: how the temporary path and the FIFO path derive from the
    final path. *)
Class TargetPaths : Type := {
  tempPathOf : string → string;
  fifoPathOf : string → string;
}.

(** The two fields of [FileTarget] that [task.go] reads and writes. *)
Record FileTarget : Type := mkFileTarget { path : string; doStream : bool }.

Global Instance FileTarget_eq_dec : EqDecision FileTarget.
Proof. solve_decision. Defined.

Definition NewFileTarget (path : string) : FileTarget :=
  {| path := path; doStream := false |}.

Section FileTargetMethods.
Context `{TargetPaths}.

Definition GetPath (ft : FileTarget) : string := path ft.
Definition GetTempPath (ft : FileTarget) : string := tempPathOf (path ft).
Definition GetFifoPath (ft : FileTarget) : string := fifoPathOf (path ft).

End FileTargetMethods.

(** ** The command formatter *)

Section Formatter.
Context `{TargetPaths}.

(** The body of the loop of [formatCommand] up to the replacement: the
    value [filePath] for the placeholder [m], or the panic raised by
    [Check].  [cmd] is the command as rewritten so far; it only occurs in
    the messages. *)
Definition placeHolderValue (m : Submatch) (cmd : string)
    (inTargets outTargets : gmap string FileTarget)
    (params : gmap string string) : Result string :=
  let typ := m1 m in
  let name := m2 m in
  filePath ←
    (if decide (typ = "o" ∨ typ = "os") then
       match outTargets !! name with
       | None =>
           Check (Some (GoStrings.Sprint
             ["Missing outpath for outport '"; name; "' for command '"; cmd; "'"]));;
           mret ""
       | Some tgt =>
           if decide (typ = "o") then mret (GetTempPath tgt)
           else if decide (typ = "os") then mret (GetFifoPath tgt)
           else mret ""
       end
     else if decide (typ = "i") then
       match inTargets !! name with
       | None =>
           Check (Some (GoStrings.Sprint
             ["Missing intarget for inport '"; name; "' for command '"; cmd; "'"]));;
           mret ""
       | Some tgt =>
           if decide (GetPath tgt = "") then
             Check (Some (GoStrings.Sprint
               ["Missing inpath for inport '"; name; "' for command '"; cmd; "'"]));;
             mret ""
           else if doStream tgt then mret (GetFifoPath tgt)
           else mret (GetPath tgt)
       end
     else if decide (typ = "p") then
       if decide (default "" (params !! name) = "") then
         Check (Some (GoStrings.Sprint
           ["Missing param value param '"; name; "' for command '"; cmd; "'"]));;
         mret ""
       else mret (default "" (params !! name))
     else mret "");
  (if decide (filePath = "") then
     Check (Some (GoStrings.Sprint
       ["Replace failed for port "; name; " for command '"; cmd; "'"]))
   else mret tt);;
  mret filePath.

(** The loop [for _, m := range ms] of [formatCommand]. *)
Fixpoint replacePlaceHolders (ms : list Submatch) (cmd : string)
    (inTargets outTargets : gmap string FileTarget)
    (params : gmap string string) : Result string :=
  match ms with
  | [] => mret cmd
  | m :: ms' =>
      let placeHolderStr := m0 m in
      filePath ← placeHolderValue m cmd inTargets outTargets params;
      replacePlaceHolders ms' (GoStrings.Replace cmd placeHolderStr filePath)
        inTargets outTargets params
  end.

(** The last step of [formatCommand]. *)
Definition addPrepend (prepend cmd : string) : string :=
  if decide (prepend = "") then cmd else prepend +:+ " " +:+ cmd.

Definition formatCommand (cmd : string)
    (inTargets outTargets : gmap string FileTarget)
    (params : gmap string string) (prepend : string) : Result string :=
  let ms := FindAllStringSubmatch cmd in
  cmd ← replacePlaceHolders ms cmd inTargets outTargets params;
  mret (addPrepend prepend cmd).

End Formatter.

(** ** Tasks *)

(** [SciTask].  The field [CustomExecute], a Go function that takes the
    task, is kept as a handle of an abstract type [Strategy] (a record
    cannot hold a function of its own type); the run-time environment below
    says what calling a handle does.  [None] is Go's [nil].  The channel [Done] has no
    field here: what happens on it is recorded as events of the world. *)
Record SciTask (Strategy : Type) : Type := mkSciTask {
  Name : string;
  Command : string;
  CustomExecute : option Strategy;
  InTargets : gmap string FileTarget;
  OutTargets : gmap string FileTarget;
  Params : gmap string string;
}.
Arguments mkSciTask {Strategy}.
Arguments Name {Strategy}.
Arguments Command {Strategy}.
Arguments CustomExecute {Strategy}.
Arguments InTargets {Strategy}.
Arguments OutTargets {Strategy}.
Arguments Params {Strategy}.

Section Construction.
Context `{TargetPaths} {Strategy : Type}.

(** An output-path generator, a Go function from the task to a path; it
    is taken to read the task only. *)
Definition PathFunc : Type := SciTask Strategy → string.

(** The state of the loop that creates the out-targets: the local map
    [outTargets], and (for the statements about how often a generator
    runs) the calls made so far, each with the port and the task that
    was passed. *)
Record OutLoop : Type := mkOutLoop {
  outTargets : gmap string FileTarget;
  calls : list (string * SciTask Strategy);
}.

(** One iteration of [for oname, ofun := range outPathFuncs]. *)
Definition createOutTarget (t : SciTask Strategy)
    (outPortsDoStream : gmap string bool)
    (st : OutLoop) (entry : string * PathFunc) : OutLoop :=
  let '(oname, ofun) := entry in
  let opath := ofun t in
  let otgt := NewFileTarget opath in
  let otgt :=
    if default false (outPortsDoStream !! oname)
    then {| path := path otgt; doStream := true |}
    else otgt in
  {| outTargets := <[oname := otgt]> (outTargets st);
     calls := calls st ++ [(oname, t)] |}.

Definition createOutTargets (t : SciTask Strategy)
    (outPathFuncs : gmap string PathFunc)
    (outPortsDoStream : gmap string bool) : OutLoop :=
  foldl (createOutTarget t outPortsDoStream)
    {| outTargets := ∅; calls := [] |} (map_to_list outPathFuncs).

(** The task as it is when the generators run: line 24 to 31. *)
Definition newTask (name : string) (inTargets : gmap string FileTarget)
    (params : gmap string string) : SciTask Strategy :=
  {| Name := name; InTargets := inTargets; OutTargets := ∅;
     Params := params; Command := ""; CustomExecute := None |}.

Definition NewSciTask (name cmdPat : string)
    (inTargets : gmap string FileTarget)
    (outPathFuncs : gmap string PathFunc)
    (outPortsDoStream : gmap string bool)
    (params : gmap string string) (prepend : string)
    : Result (SciTask Strategy) :=
  let t := newTask name inTargets params in
  let outTargets :=
    outTargets (createOutTargets t outPathFuncs outPortsDoStream) in
  command ← formatCommand cmdPat inTargets outTargets params prepend;
  mret {| Name := Name t; InTargets := InTargets t; OutTargets := outTargets;
          Params := Params t; Command := command;
          CustomExecute := CustomExecute t |}.

(** [GetInPath]: reading through a missing port is a nil dereference. *)
Definition GetInPath (t : SciTask Strategy) (inPort : string) : Result string :=
  match InTargets t !! inPort with
  | Some tgt => mret (GetPath tgt)
  | None => Panic "invalid memory address or nil pointer dereference"
  end.

End Construction.
Arguments PathFunc : clear implicits.
Arguments OutLoop : clear implicits.

(** ** The executor *)

(** What [Execute] does that can be seen from outside the task. *)
Inductive Event (Strategy : Type) : Type :=
| CustomExecuted (f : Strategy)
| CommandExecuted (cmd : string)
| Atomized (oname : string) (tgt : FileTarget)
| DoneSent (v : Z)
| DoneClosed.
Arguments CustomExecuted {Strategy}.
Arguments CommandExecuted {Strategy}.
Arguments Atomized {Strategy}.
Arguments DoneSent {Strategy}.
Arguments DoneClosed {Strategy}.

(** The world: the paths that exist on disk, and the events so far. *)
Record World (Strategy : Type) : Type := mkWorld {
  files : gset string;
  events : list (Event Strategy);
}.
Arguments mkWorld {Strategy}.
Arguments files {Strategy}.
Arguments events {Strategy}.

(** The run-time environment: what [bash -c cmd] and a custom strategy do
    to the files, and the error (for the strategy: the panic) they end
    with, if any. *)
Class Runtime (Strategy : Type) : Type := {
  bash : string → gset string → gset string * option string;
  callCustom :
    Strategy → SciTask Strategy → gset string → gset string * option string;
}.

(** Computations over the world that may panic; the world at the panic is
    kept, since deferred calls still run on it. *)
Definition Exec (Strategy A : Type) : Type :=
  World Strategy → Result A * World Strategy.

Global Instance Exec_ret {Strategy} : MRet (Exec Strategy) := λ A a w, (Ok a, w).
Global Instance Exec_bind {Strategy} : MBind (Exec Strategy) := λ A B k e w,
  match e w with
  | (Ok a, w') => k a w'
  | (Panic msg, w') => (Panic msg, w')
  end.

Section Executor.
Context `{TargetPaths} {Strategy : Type} `{!Runtime Strategy}.

Definition emit (ev : Event Strategy) : Exec Strategy unit := λ w,
  (Ok tt, {| files := files w; events := events w ++ [ev] |}).

(** [_, err := os.Stat(p)]; the result is [err == nil]. *)
Definition Stat (p : string) : Exec Strategy bool := λ w,
  (Ok (bool_decide (p ∈ files w)), w).

(** [defer d] around a body: [d] runs when the body returns and when it
    panics, and the body's outcome stands. *)
Definition defer {A} (d : Exec Strategy unit) (body : Exec Strategy A)
    : Exec Strategy A := λ w,
  let '(r, w1) := body w in (r, (d w1).2).

(** A [for ... range] loop with the variables it assigns as [s]. *)
Fixpoint forRange {A S} (l : list A) (s : S)
    (body : S → A → Exec Strategy S) : Exec Strategy S :=
  match l with
  | [] => mret s
  | x :: l' => s' ← body s x; forRange l' s' body
  end.

(** Modelled from the spec: [Atomize] is a method of [FileTarget], which
    is not part of [task.go]; the specification gives it as
    [Atomize() error], the rename of the temporary path to the final
    path.  The rename fails when the temporary path does not exist. *)
Definition Atomize (tgt : FileTarget) : Exec Strategy (option string) := λ w,
  if bool_decide (GetTempPath tgt ∈ files w)
  then (Ok None,
        {| files := {[GetPath tgt]} ∪ (files w ∖ {[GetTempPath tgt]});
           events := events w |})
  else (Ok (Some "rename: no such file or directory"), w).

Definition anyOutputExists (t : SciTask Strategy) : Exec Strategy bool :=
  forRange (map_to_list (OutTargets t)) false
    (λ (anyFileExists : bool) (entry : string * FileTarget),
    let tgt := entry.2 in
    let opath := GetPath tgt in
    let otmpPath := GetTempPath tgt in
    if negb (doStream tgt) then
      ok ← Stat opath;
      let anyFileExists := if (ok : bool) then true else anyFileExists in
      ok ← Stat otmpPath;
      let anyFileExists := if (ok : bool) then true else anyFileExists in
      mret anyFileExists
    else mret anyFileExists).

Definition anyFifosExist (t : SciTask Strategy) : Exec Strategy bool :=
  forRange (map_to_list (OutTargets t)) false
    (λ (anyFifosExist : bool) (entry : string * FileTarget),
    let tgt := entry.2 in
    let ofifoPath := GetFifoPath tgt in
    if doStream tgt then
      ok ← Stat ofifoPath;
      mret (if (ok : bool) then true else anyFifosExist)
    else mret anyFifosExist).

Definition fifosInOutTargetsMissing (t : SciTask Strategy) : Exec Strategy bool :=
  forRange (map_to_list (OutTargets t)) false
    (λ (fifosInOutTargetsMissing : bool) (entry : string * FileTarget),
    let tgt := entry.2 in
    if doStream tgt then
      let ofifoPath := GetFifoPath tgt in
      ok ← Stat ofifoPath;
      mret (if negb (ok : bool) then true else fifosInOutTargetsMissing)
    else mret fifosInOutTargetsMissing).

(** Lifting of [Check] to the executor. *)
Definition check (err : option string) : Exec Strategy unit := λ w,
  (Check err, w).

Definition executeCommand (t : SciTask Strategy) (cmd : string)
    : Exec Strategy unit :=
  emit (CommandExecuted cmd);;
  err ← (λ w, let '(fs, err) := bash cmd (files w) in
              (Ok err, {| files := fs; events := events w |}));
  check err.

(** The call [t.CustomExecute(t)]. *)
Definition customExecute (f : Strategy) (t : SciTask Strategy)
    : Exec Strategy unit :=
  emit (CustomExecuted f);;
  err ← (λ w, let '(fs, err) := callCustom f t (files w) in
              (Ok err, {| files := fs; events := events w |}));
  check err.

(** The event of an [Atomized] call carries the port, which tells the
    target objects of two ports apart. *)
Definition atomizeTargets (t : SciTask Strategy) : Exec Strategy unit :=
  forRange (map_to_list (OutTargets t)) tt
    (λ (_ : unit) (entry : string * FileTarget),
    let '(oname, tgt) := entry in
    if negb (doStream tgt) then
      emit (Atomized oname tgt);;
      _ ← Atomize tgt;
      mret tt
    else mret tt).

Definition Execute (t : SciTask Strategy) : Exec Strategy unit :=
  defer (emit DoneClosed)
    (anyExists ← anyOutputExists t;
     run ← (if negb (anyExists : bool)
            then missing ← fifosInOutTargetsMissing t; mret (negb missing)
            else mret false);
     (if run : bool then
        match CustomExecute t with
        | Some f => customExecute f t
        | None => executeCommand t (Command t)
        end;;
        atomizeTargets t
      else mret tt);;
     emit (DoneSent 1)).

(** Modelled from the spec: [CreateFifo] and [RemoveFifo] are methods of
    [FileTarget], which is not part of [task.go]; the specification gives
    them as [CreateFifo() error] and [RemoveFifo() error], the creation
    and the removal of the named pipe at the FIFO path.  Creating a path
    that exists and removing one that does not are errors that leave the
    files as they are. *)
Definition CreateFifo (tgt : FileTarget) : Exec Strategy (option string) := λ w,
  if bool_decide (GetFifoPath tgt ∈ files w)
  then (Ok (Some "mkfifo: file exists"), w)
  else (Ok None,
        {| files := {[GetFifoPath tgt]} ∪ files w; events := events w |}).

Definition RemoveFifo (tgt : FileTarget) : Exec Strategy (option string) := λ w,
  if bool_decide (GetFifoPath tgt ∈ files w)
  then (Ok None,
        {| files := files w ∖ {[GetFifoPath tgt]}; events := events w |})
  else (Ok (Some "rm: no such file or directory"), w).

Definition createFifos (t : SciTask Strategy) : Exec Strategy unit :=
  forRange (map_to_list (OutTargets t)) tt
    (λ (_ : unit) (entry : string * FileTarget),
    let otgt := entry.2 in
    if doStream otgt then
      _ ← CreateFifo otgt;
      mret tt
    else mret tt).

Definition cleanUpFifos (t : SciTask Strategy) : Exec Strategy unit :=
  forRange (map_to_list (OutTargets t)) tt
    (λ (_ : unit) (entry : string * FileTarget),
    let tgt := entry.2 in
    if doStream tgt then
      _ ← RemoveFifo tgt;
      mret tt
    else mret tt).

End Executor.

(** ** Vocabulary of the properties *)

(** Whether the character [c] occurs in [s]. *)
Fixpoint occurs (c : ascii) (s : string) : bool :=
  match s with
  | EmptyString => false
  | String a s' => Ascii.eqb a c || occurs c s'
  end.

Definition noOpenBrace (s : string) : Prop := occurs "{" s = false.

(** The text after the first [n] bytes. *)
Fixpoint after (n : nat) (s : string) : string :=
  match n, s with
  | S k, String _ s' => after k s'
  | _, _ => s
  end.

(** A token as the regular expression matches it. *)
Definition wellFormed (m : Submatch) : Prop :=
  m0 m = "{" +:+ m1 m +:+ ":" +:+ m2 m +:+ "}" ∧
  m1 m ∈ PlaceHolder.kinds ∧
  m2 m ≠ "" ∧
  occurs "{" (m2 m) = false ∧ occurs "}" (m2 m) = false ∧
  occurs ":" (m2 m) = false.

(** Every opening brace of [cmd] is the first character of a placeholder
    token of [cmd]. *)
Definition everyBraceOpensToken (cmd : string) : bool :=
  forallb
    (λ it, match it with
           | PlaceHolder.Chr c => negb (Ascii.eqb c "{")
           | PlaceHolder.Tok _ => true
           end)
    (PlaceHolder.scan cmd).

Section FormatterVocabulary.
Context `{TargetPaths}.

(** The resolution rules of the specification, by kind: what a token of
    kind [kind] and name [name] stands for, when the name is mapped. *)
Definition tokenValue (kind name : string)
    (inTargets outTargets : gmap string FileTarget)
    (params : gmap string string) : option string :=
  if decide (kind = "i") then
    tgt ← inTargets !! name;
    Some (if doStream tgt then GetFifoPath tgt else GetPath tgt)
  else if decide (kind = "o") then GetTempPath <$> outTargets !! name
  else if decide (kind = "os") then GetFifoPath <$> outTargets !! name
  else if decide (kind = "p") then params !! name
  else None.

(** The token [m] stands for [v], and the loop body accepts it: the value
    is not empty, and neither is the final path of an input. *)
Definition resolvesTo (m : Submatch)
    (inTargets outTargets : gmap string FileTarget)
    (params : gmap string string) (v : string) : Prop :=
  tokenValue (m1 m) (m2 m) inTargets outTargets params = Some v ∧ v ≠ "" ∧
  (m1 m = "i" → ∀ tgt, inTargets !! m2 m = Some tgt → GetPath tgt ≠ "").

(** What the token [m] stands for (the empty string when it stands for
    nothing). *)
Definition valueOf (inTargets outTargets : gmap string FileTarget)
    (params : gmap string string) (m : Submatch) : string :=
  default "" (tokenValue (m1 m) (m2 m) inTargets outTargets params).

(** How a token is written once the tokens [done] were replaced. *)
Definition writtenAfter (inTargets outTargets : gmap string FileTarget)
    (params : gmap string string) (done : list Submatch) (m : Submatch)
    : string :=
  if decide (m ∈ done) then valueOf inTargets outTargets params m else m0 m.

(** The pattern with every token replaced, all at once, by what it stands
    for. *)
Definition substituted (cmd : string)
    (inTargets outTargets : gmap string FileTarget)
    (params : gmap string string) : string :=
  PlaceHolder.render (valueOf inTargets outTargets params)
    (PlaceHolder.scan cmd).


End FormatterVocabulary.

Section ExecutorVocabulary.
Context `{TargetPaths} {Strategy : Type} `{!Runtime Strategy}.

(** The two reasons for which [Execute] does not run the task, on the
    files [fs]. *)
Definition outputExists (t : SciTask Strategy) (fs : gset string) : Prop :=
  ∃ oname tgt, OutTargets t !! oname = Some tgt ∧ doStream tgt = false ∧
    (GetPath tgt ∈ fs ∨ GetTempPath tgt ∈ fs).

Definition fifoMissing (t : SciTask Strategy) (fs : gset string) : Prop :=
  ∃ oname tgt, OutTargets t !! oname = Some tgt ∧ doStream tgt = true ∧
    GetFifoPath tgt ∉ fs.

Definition skipCondition (t : SciTask Strategy) (fs : gset string) : Prop :=
  outputExists t fs ∨ fifoMissing t fs.

(** The two checks of [Execute], as functions of the files. *)
Definition outputExistsB (t : SciTask Strategy) (fs : gset string) : bool :=
  existsb (λ entry : string * FileTarget,
             negb (doStream entry.2) &&
             (bool_decide (GetPath entry.2 ∈ fs) ||
              bool_decide (GetTempPath entry.2 ∈ fs)))
    (map_to_list (OutTargets t)).

Definition fifoMissingB (t : SciTask Strategy) (fs : gset string) : bool :=
  existsb (λ entry : string * FileTarget,
             doStream entry.2 && negb (bool_decide (GetFifoPath entry.2 ∈ fs)))
    (map_to_list (OutTargets t)).

(** What the execution strategy of [t] does on the files [fs]: the files
    it leaves, and the error it ends with. *)
Definition strategyResult (t : SciTask Strategy) (fs : gset string)
    : gset string * option string :=
  match CustomExecute t with
  | Some f => callCustom f t fs
  | None => bash (Command t) fs
  end.

(** The event that marks the invocation of the strategy of [t]. *)
Definition strategyEvent (t : SciTask Strategy) : Event Strategy :=
  match CustomExecute t with
  | Some f => CustomExecuted f
  | None => CommandExecuted (Command t)
  end.

Definition isInvocation (ev : Event Strategy) : bool :=
  match ev with
  | CustomExecuted _ | CommandExecuted _ => true
  | _ => false
  end.

Definition isAtomized (ev : Event Strategy) : bool :=
  match ev with
  | Atomized _ _ => true
  | _ => false
  end.

Definition isAtomizedOf (oname : string) (ev : Event Strategy) : bool :=
  match ev with
  | Atomized o _ => bool_decide (o = oname)
  | _ => false
  end.

(** How often the target of the port [oname] is atomized in [evs]. *)
Definition atomizations (oname : string) (evs : list (Event Strategy)) : nat :=
  length (List.filter (isAtomizedOf oname) evs).

Definition isDone (ev : Event Strategy) : bool :=
  match ev with
  | DoneSent _ | DoneClosed => true
  | _ => false
  end.

(** The files after the rename of the temporary path of [tgt]. *)
Definition renamed (fs : gset string) (tgt : FileTarget) : gset string :=
  if bool_decide (GetTempPath tgt ∈ fs)
  then {[GetPath tgt]} ∪ (fs ∖ {[GetTempPath tgt]})
  else fs.

(** The non-streaming out-targets, in the order of the loops. *)
Definition filesToAtomize (t : SciTask Strategy) : list (string * FileTarget) :=
  filter (λ entry, doStream entry.2 = false) (map_to_list (OutTargets t)).

(** The streaming out-targets, in the order of the loops, and the set of
    their FIFO paths. *)
Definition fifosToCreate (t : SciTask Strategy) : list (string * FileTarget) :=
  filter (λ entry, doStream entry.2 = true) (map_to_list (OutTargets t)).

Definition fifoPaths (t : SciTask Strategy) : gset string :=
  list_to_set ((λ entry, GetFifoPath entry.2) <$> fifosToCreate t).

(** The paths that [Execute] itself may create or remove: the final and
    the temporary paths of the non-streaming out-targets. *)
Definition outputPath (t : SciTask Strategy) (p : string) : Prop :=
  ∃ oname tgt, OutTargets t !! oname = Some tgt ∧ doStream tgt = false ∧
    (p = GetPath tgt ∨ p = GetTempPath tgt).

End ExecutorVocabulary.

Section ConstructionVocabulary.
Context `{TargetPaths} {Strategy : Type}.

(** The out-target that one iteration of the loop of [NewSciTask] makes
    for a port, on the task [t]. *)
Definition outTargetOf (t : SciTask Strategy) (streams : gmap string bool)
    (oname : string) (f : PathFunc Strategy) : FileTarget :=
  {| path := f t; doStream := default false (streams !! oname) |}.

(** The calls of the generators that [NewSciTask] makes: those of its
    loop, run on the task of its first statement. *)
Definition generatorCalls (name : string) (ins : gmap string FileTarget)
    (funcs : gmap string (PathFunc Strategy)) (streams : gmap string bool)
    (params : gmap string string) : list (string * SciTask Strategy) :=
  calls (createOutTargets (newTask name ins params) funcs streams).

End ConstructionVocabulary.

(** ** Fixtures: the conventions of the upstream [FileTarget], and small
    run-time environments *)

Definition upstreamPaths : TargetPaths :=
  {| tempPathOf p := p +:+ ".tmp"; fifoPathOf p := p +:+ ".fifo" |}.

(** An environment in which the shell command and the custom strategy
    write the temporary file of [/data/a.out]. *)
Definition writingRuntime : Runtime unit :=
  {| bash _ fs := ({["/data/a.out.tmp"]} ∪ fs, None);
     callCustom _ _ fs := ({["/data/a.out.tmp"]} ∪ fs, None) |}.

(** An environment in which the shell command ends with an error. *)
Definition failingRuntime : Runtime unit :=
  {| bash _ fs := (fs, Some "exit status 1");
     callCustom _ _ fs := (fs, None) |}.

Definition exampleIn : gmap string FileTarget :=
  {[ "in" := NewFileTarget "/data/a.txt" ]}.

Definition exampleOut : gmap string FileTarget :=
  {[ "out" := NewFileTarget "/data/a.out" ]}.

Definition exampleParams : gmap string string := {[ "level" := "3" ]}.

Definition examplePattern : string := "tool -i {i:in} -o {o:out} -p {p:level}".

Definition exampleFuncs : gmap string (PathFunc unit) :=
  {[ "out" := λ _, "/data/a.out" ]}.

(** A task whose input is streamed. *)
Definition streamedIn : gmap string FileTarget :=
  {[ "in" := {| path := "/data/a.txt"; doStream := true |} ]}.

Definition streamedTask : SciTask unit :=
  {| Name := "tool"; Command := "tool -i /data/a.txt.fifo";
     CustomExecute := None; InTargets := streamedIn; OutTargets := ∅;
     Params := ∅ |}.

(** An environment in which the shell command and the custom strategy
    return without an error and write nothing. *)
Definition idleRuntime : Runtime unit :=
  {| bash _ fs := (fs, None); callCustom _ _ fs := (fs, None) |}.

(** An input that is streamed and has no final path. *)
Definition unnamedIn : gmap string FileTarget :=
  {[ "in" := {| path := ""; doStream := true |} ]}.

(** The out-targets of the example with the port streaming. *)
Definition streamedOut : gmap string FileTarget :=
  {[ "out" := {| path := "/data/a.out"; doStream := true |} ]}.

(** A generator that derives the output path from the path of an input. *)
Definition copyFuncs : gmap string (PathFunc unit) :=
  {[ "out" := λ t, default "" (path <$> InTargets t !! "in") +:+ ".out" ]}.

Definition copyTask : SciTask unit :=
  {| Name := "copy"; Command := "cp /data/a.txt /data/a.txt.out.tmp";
     CustomExecute := None; InTargets := exampleIn;
     OutTargets := {[ "out" := NewFileTarget "/data/a.txt.out" ]};
     Params := ∅ |}.

(** A task with a streaming out-target. *)
Definition producerTask : SciTask unit :=
  {| Name := "producer"; Command := "gen > /data/a.out.fifo";
     CustomExecute := None; InTargets := ∅; OutTargets := streamedOut;
     Params := ∅ |}.

Definition exampleTask : SciTask unit :=
  {| Name := "tool"; Command := "tool -i /data/a.txt -o /data/a.out.tmp -p 3";
     CustomExecute := None; InTargets := exampleIn; OutTargets := exampleOut;
     Params := exampleParams |}.

(** * Properties *)

(** ** Strings *)

Section StringFacts.

Lemma append_nil_l (s : string) : "" +:+ s = s.
Proof. reflexivity. Qed.

Lemma append_cons (c : ascii) (a s : string) :
  String c a +:+ s = String c (a +:+ s).
Proof. reflexivity. Qed.

Lemma append_nil_r (s : string) : s +:+ "" = s.
Proof. induction s as [|c s IH]; [done|]. by rewrite append_cons, IH. Qed.

Lemma append_assoc (a b c : string) : (a +:+ b) +:+ c = a +:+ (b +:+ c).
Proof.
  induction a as [|x a IH]; [done|]. by rewrite !append_cons, IH.
Qed.

Lemma append_length (a b : string) :
  String.length (a +:+ b) = String.length a + String.length b.
Proof.
  induction a as [|x a IH]; [done|]. rewrite append_cons. simpl. by rewrite IH.
Qed.

Lemma append_inv_head (a b c : string) : a +:+ b = a +:+ c → b = c.
Proof.
  induction a as [|x a IH]; [done|]. rewrite !append_cons. intros [= Heq]. auto.
Qed.

Lemma ascii_eqb_true (a b : ascii) : Ascii.eqb a b = true ↔ a = b.
Proof. apply Ascii.eqb_eq. Qed.

Lemma ascii_eqb_false (a b : ascii) : Ascii.eqb a b = false ↔ a ≠ b.
Proof. apply Ascii.eqb_neq. Qed.

Lemma occurs_append (c : ascii) (a b : string) :
  occurs c (a +:+ b) = occurs c a || occurs c b.
Proof.
  induction a as [|x a IH]; [done|].
  rewrite append_cons. simpl. by rewrite IH, orb_assoc.
Qed.

Lemma prefix_cons_ne (a b : ascii) (p s : string) :
  a ≠ b → String.prefix (String a p) (String b s) = false.
Proof. intros Hne. simpl. by destruct (ascii_dec a b). Qed.

Lemma prefix_cons_eq (a : ascii) (p s : string) :
  String.prefix (String a p) (String a s) = String.prefix p s.
Proof. simpl. by destruct (ascii_dec a a). Qed.

Lemma prefix_append (p s : string) : String.prefix p (p +:+ s) = true.
Proof.
  induction p as [|a p IH]; [by destruct s|].
  by rewrite append_cons, prefix_cons_eq.
Qed.

Lemma prefix_inv (p s : string) :
  String.prefix p s = true → ∃ r, s = p +:+ r.
Proof.
  revert s. induction p as [|a p IH]; intros s Hp.
  - by exists s.
  - destruct s as [|b s]; [done|].
    simpl in Hp. destruct (ascii_dec a b) as [->|]; [|done].
    destruct (IH _ Hp) as [r ->]. by exists r.
Qed.

(** Two texts that end at their first closing brace: if one, with its
    brace, starts the other followed by anything, they are equal. *)
Lemma closed_prefix_eq (b b' s r : string) :
  occurs "}" b = false → occurs "}" b' = false →
  (b +:+ "}") +:+ r = (b' +:+ "}") +:+ s → b = b'.
Proof.
  revert b'. induction b as [|x b IH]; intros [|y b'] Hb Hb'; simpl in *.
  - done.
  - rewrite !append_cons, !append_nil_l. intros [= <- _].
    by rewrite Ascii.eqb_refl in Hb'.
  - rewrite !append_cons, !append_nil_l. intros [= -> _].
    by rewrite Ascii.eqb_refl in Hb.
  - rewrite !append_cons. intros [= -> Heq].
    apply orb_false_elim in Hb as [_ Hb]. apply orb_false_elim in Hb' as [_ Hb'].
    f_equal. eauto.
Qed.

End StringFacts.

(** ** [strings.Replace] *)

Section ReplaceFacts.
Import GoStrings.

Lemma replaceFrom_skip (old new a s : string) :
  replaceFrom old new (String.length a) (a +:+ s) = replaceFrom old new 0 s.
Proof.
  induction a as [|x a IH]; [done|]. by rewrite append_cons.
Qed.

(** An occurrence at the front is replaced, and the scan goes on behind
    it. *)
Lemma replaceFrom_hit (c : ascii) (old' new s : string) :
  replaceFrom (String c old') new 0 (String c old' +:+ s)
  = new +:+ replaceFrom (String c old') new 0 s.
Proof.
  rewrite append_cons. cbn [replaceFrom].
  rewrite <- append_cons, prefix_append. f_equal.
  replace (String.length (String c old') - 1) with (String.length old')
    by (simpl; lia).
  apply replaceFrom_skip.
Qed.

(** Text without the first character of [old] is copied. *)
Lemma replaceFrom_pass (c : ascii) (old' new a s : string) :
  occurs c a = false →
  replaceFrom (String c old') new 0 (a +:+ s)
  = a +:+ replaceFrom (String c old') new 0 s.
Proof.
  induction a as [|x a IH]; intros Ha; [done|].
  simpl in Ha. apply orb_false_elim in Ha as [Hx Ha].
  apply ascii_eqb_false in Hx.
  rewrite !append_cons. cbn [replaceFrom].
  rewrite prefix_cons_ne by congruence. by rewrite IH.
Qed.

(** A different token at the front is copied. *)
Lemma replaceFrom_other (b b' new s : string) :
  occurs "{" b' = false → occurs "}" b = false → occurs "}" b' = false →
  b ≠ b' →
  replaceFrom ("{" +:+ b +:+ "}") new 0 (("{" +:+ b' +:+ "}") +:+ s)
  = ("{" +:+ b' +:+ "}") +:+ replaceFrom ("{" +:+ b +:+ "}") new 0 s.
Proof.
  intros Hopen Hb Hb' Hne.
  rewrite !append_cons, !append_nil_l. cbn [replaceFrom].
  destruct (String.prefix _ _) eqn:Hp.
  - exfalso. apply prefix_inv in Hp as [r Hr].
    rewrite !append_cons in Hr. injection Hr as Hr.
    apply Hne. symmetry. by eapply closed_prefix_eq.
  - f_equal. rewrite replaceFrom_pass; [done|].
    by rewrite occurs_append, Hopen.
Qed.

End ReplaceFacts.

(** ** The scan for placeholder tokens *)

Section ScanFacts.
Import PlaceHolder.

Lemma stripPrefix_Some (p s r : string) :
  stripPrefix p s = Some r ↔ s = p +:+ r.
Proof.
  revert s. induction p as [|a p IH]; intros s.
  - simpl. rewrite append_nil_l. naive_solver.
  - destruct s as [|b s]; simpl; [done|].
    rewrite append_cons. destruct (Ascii.eqb a b) eqn:Hab.
    + apply ascii_eqb_true in Hab as ->. rewrite IH. split; congruence.
    + apply ascii_eqb_false in Hab. split; congruence.
Qed.

Lemma spanName_spec (s n r : string) :
  spanName s = (n, r) →
  s = n +:+ r ∧ occurs "{" n = false ∧ occurs "}" n = false ∧
  occurs ":" n = false.
Proof.
  revert n r. induction s as [|c s IH]; intros n r; simpl.
  - by intros [= <- <-].
  - destruct (isNameChar c) eqn:Hc.
    + destruct (spanName s) as [n' r']. intros [= <- <-].
      destruct (IH _ _ eq_refl) as (-> & H1 & H2 & H3).
      rewrite append_cons. simpl. rewrite H1, H2, H3.
      unfold isNameChar in Hc. apply negb_true_iff in Hc.
      apply orb_false_elim in Hc as [Hc Hc3].
      apply orb_false_elim in Hc as [Hc1 Hc2].
      by rewrite Hc1, Hc2, Hc3.
    + by intros [= <- <-].
Qed.

Lemma splitKind_spec (ks : list string) (r k r' : string) :
  splitKind ks r = Some (k, r') → k ∈ ks ∧ r = (k +:+ ":") +:+ r'.
Proof.
  induction ks as [|k0 ks IH]; simpl; [done|].
  destruct (stripPrefix _ r) as [r0|] eqn:Hs.
  - intros [= <- <-]. apply stripPrefix_Some in Hs. split; [left|done].
  - intros Hk. destruct (IH Hk). split; [by right|done].
Qed.

Lemma matchHere_spec (s : string) (m : Submatch) :
  matchHere s = Some m → wellFormed m ∧ ∃ r, s = m0 m +:+ r.
Proof.
  unfold matchHere. intros Hm.
  destruct (stripPrefix "{" s) as [r|] eqn:Hs;
    cbn [mbind option_bind] in Hm; [|done].
  apply stripPrefix_Some in Hs as ->.
  destruct (splitKind kinds r) as [[kind r']|] eqn:Hk;
    cbn [mbind option_bind] in Hm; [|done].
  apply splitKind_spec in Hk as [Hkind ->].
  destruct (spanName r') as [name r''] eqn:Hn.
  apply spanName_spec in Hn as (-> & H1 & H2 & H3).
  destruct (decide (name = "")) as [|Hne]; [done|].
  destruct (stripPrefix "}" r'') as [r3|] eqn:Hc;
    cbn [mbind option_bind] in Hm; [|done].
  apply stripPrefix_Some in Hc as ->. injection Hm as <-.
  split; [done|]. exists r3. simpl. by rewrite !append_assoc.
Qed.

Lemma matchHere_not_brace (c : ascii) (s : string) :
  c ≠ "{"%char → matchHere (String c s) = None.
Proof.
  intros Hc. unfold matchHere. cbn [stripPrefix].
  apply Ascii.eqb_neq in Hc. rewrite Ascii.eqb_sym in Hc. by rewrite Hc.
Qed.

Lemma after_append (a s : string) : after (String.length a) (a +:+ s) = s.
Proof. induction a as [|x a IH]; [by destruct s|]. by rewrite append_cons. Qed.

Lemma scanFrom_render (s : string) (skip : nat) :
  skip ≤ String.length s → render m0 (scanFrom skip s) = after skip s.
Proof.
  revert skip. induction s as [|c s IH]; intros skip Hle.
  - by destruct skip.
  - destruct skip as [|k]; cbn [scanFrom].
    + destruct (matchHere (String c s)) as [m|] eqn:Hm.
      * apply matchHere_spec in Hm as [[Hwf _] [r Hr]].
        rewrite append_cons in Hwf.
        destruct (m0 m) as [|x body] eqn:Hm0; [done|].
        rewrite append_cons in Hr. injection Hr as -> ->.
        cbn [render]. rewrite Hm0, append_cons. simpl. f_equal.
        rewrite Nat.sub_0_r, IH by (rewrite append_length; lia).
        by rewrite after_append.
      * cbn [render]. rewrite IH by lia. by destruct s.
    + simpl in Hle. rewrite IH by lia. done.
Qed.

(** The scan loses nothing: written back, it is the string. *)
Lemma scan_render (s : string) : render m0 (scan s) = s.
Proof. unfold scan. rewrite scanFrom_render by lia. by destruct s. Qed.

Lemma scanFrom_wellFormed (s : string) (skip : nat) (m : Submatch) :
  Tok m ∈ scanFrom skip s → wellFormed m.
Proof.
  revert skip. induction s as [|c s IH]; intros skip; cbn [scanFrom].
  - by intros ?%elem_of_nil.
  - destruct skip as [|k]; [|by apply IH].
    destruct (matchHere (String c s)) as [m'|] eqn:Hm.
    + intros [[= ->]|Hin]%elem_of_cons; [|by eapply IH].
      by apply matchHere_spec in Hm as [? _].
    + intros [[=]|Hin]%elem_of_cons. by eapply IH.
Qed.

Lemma elem_of_tokens (m : Submatch) (items : list Item) :
  m ∈ tokens items ↔ Tok m ∈ items.
Proof.
  unfold tokens. rewrite list_elem_of_omap. split.
  - intros ([c|m'] & Hin & Heq); naive_solver.
  - intros Hin. by exists (Tok m).
Qed.

Lemma FindAllStringSubmatch_wellFormed (cmd : string) (m : Submatch) :
  m ∈ FindAllStringSubmatch cmd → wellFormed m.
Proof.
  unfold FindAllStringSubmatch. rewrite elem_of_tokens.
  apply scanFrom_wellFormed.
Qed.

Lemma scanFrom_no_brace (s : string) (skip : nat) :
  occurs "{" s = false → tokens (scanFrom skip s) = [].
Proof.
  revert skip. induction s as [|c s IH]; intros skip Hs; [done|].
  simpl in Hs. apply orb_false_elim in Hs as [Hc Hs].
  apply ascii_eqb_false in Hc.
  destruct skip as [|k]; cbn [scanFrom]; [|by apply IH].
  rewrite matchHere_not_brace by done. simpl. by apply IH.
Qed.

(** A string without an opening brace holds no placeholder token. *)
Lemma FindAllStringSubmatch_no_brace (s : string) :
  noOpenBrace s → FindAllStringSubmatch s = [].
Proof. apply scanFrom_no_brace. Qed.

End ScanFacts.

(** ** Tokens *)

Section TokenFacts.
Import PlaceHolder.

Lemma kinds_no_brace (k : string) :
  k ∈ kinds →
  occurs "{" k = false ∧ occurs "}" k = false ∧ occurs ":" k = false.
Proof.
  unfold kinds. rewrite !elem_of_cons, elem_of_nil.
  intros [->|[->|[->|[->|[]]]]]; done.
Qed.

(** A token is an opening brace, a body without braces, and a closing
    brace. *)
Lemma wellFormed_body (m : Submatch) :
  wellFormed m →
  ∃ b, m0 m = "{" +:+ b +:+ "}" ∧ occurs "{" b = false ∧ occurs "}" b = false.
Proof.
  intros (Hm0 & Hk & _ & H1 & H2 & _).
  apply kinds_no_brace in Hk as (K1 & K2 & _).
  exists (m1 m +:+ ":" +:+ m2 m). split.
  - by rewrite Hm0, !append_assoc.
  - by rewrite !occurs_append, K1, K2, H1, H2.
Qed.

Lemma wellFormed_open_brace (m : Submatch) :
  wellFormed m → occurs "{" (m0 m) = true.
Proof. intros [-> _]. done. Qed.

Lemma kind_colon_inj (k k' n n' : string) :
  k ∈ kinds → k' ∈ kinds →
  k +:+ ":" +:+ n = k' +:+ ":" +:+ n' → k = k' ∧ n = n'.
Proof.
  unfold kinds. rewrite !elem_of_cons, !elem_of_nil.
  intros [->|[->|[->|[->|[]]]]] [->|[->|[->|[->|[]]]]];
    rewrite ?append_cons, ?append_nil_l; intros [=]; by subst.
Qed.

(** The matched text determines the capture groups. *)
Lemma wellFormed_inj (m m' : Submatch) :
  wellFormed m → wellFormed m' → m0 m = m0 m' → m = m'.
Proof.
  intros (Hm & Hk & _ & _ & Hc & _) (Hm' & Hk' & _ & _ & Hc' & _) Heq.
  rewrite Hm, Hm' in Heq.
  rewrite !append_cons, !append_nil_l in Heq. injection Heq as Heq.
  apply kind_colon_inj in Heq as [Hkk Hn]; [|done..].
  assert (m2 m = m2 m') as Hnn.
  { apply (closed_prefix_eq _ _ "" ""); [done..|].
    by rewrite !append_nil_r. }
  destruct m, m'; simpl in *; by subst.
Qed.

Lemma render_ext (f g : Submatch → string) (items : list Item) :
  (∀ m, Tok m ∈ items → f m = g m) → render f items = render g items.
Proof.
  induction items as [|[c|m] items IH]; intros Hfg; [done|..]; cbn [render].
  - rewrite IH; [done|]. intros m Hm. apply Hfg. by right.
  - rewrite (Hfg m) by left. rewrite IH; [done|].
    intros m' Hm'. apply Hfg. by right.
Qed.

Lemma render_no_brace (f : Submatch → string) (items : list Item) :
  (∀ c, Chr c ∈ items → c ≠ "{"%char) →
  (∀ m, Tok m ∈ items → noOpenBrace (f m)) →
  noOpenBrace (render f items).
Proof.
  unfold noOpenBrace.
  induction items as [|[c|m] items IH]; intros Hc Hf; [done|..]; cbn [render].
  - simpl. rewrite IH by (intros; (apply Hc || apply Hf); by right).
    rewrite orb_false_r. apply ascii_eqb_false, Hc. left.
  - rewrite occurs_append, (Hf m) by left.
    apply IH; intros; (apply Hc || apply Hf); by right.
Qed.

(** Replacing a token in a rendered scan replaces it in the rendering
    function: nothing else in the text can be taken for the token. *)
Lemma Replace_render (items : list Item) (f : Submatch → string)
    (mt : Submatch) (new : string) :
  (∀ c, Chr c ∈ items → c ≠ "{"%char) →
  (∀ m, Tok m ∈ items → wellFormed m ∧ (f m = m0 m ∨ noOpenBrace (f m))) →
  wellFormed mt →
  GoStrings.Replace (render f items) (m0 mt) new
  = render (λ m, if decide (f m = m0 mt) then new else f m) items.
Proof.
  intros Hchr Htok Hmt.
  destruct (wellFormed_body mt Hmt) as (b & Hb & Hb1 & Hb2).
  pose proof (wellFormed_open_brace mt Hmt) as Hopen.
  rewrite Hb in *. unfold GoStrings.Replace.
  change ("{" +:+ b +:+ "}") with (String "{" (b +:+ "}")).
  induction items as [|[c|m] items IH]; [done|..]; cbn [render].
  - etrans; [apply (replaceFrom_pass "{" _ new (String c ""))|].
    + simpl. rewrite orb_false_r. apply ascii_eqb_false, Hchr. left.
    + rewrite IH; [done|..]; intros; (apply Hchr || apply Htok); by right.
  - assert (GoStrings.replaceFrom (String "{" (b +:+ "}")) new 0 (render f items)
            = render (λ m, if decide (f m = String "{" (b +:+ "}"))
                           then new else f m) items) as IH'.
    { apply IH; intros; (apply Hchr || apply Htok); by right. }
    destruct (Htok m) as [Hm [Hfm|Hfm]]; [left|..].
    + destruct (wellFormed_body m Hm) as (b' & Hb' & Hb1' & Hb2').
      rewrite Hfm, Hb'.
      change ("{" +:+ b' +:+ "}") with (String "{" (b' +:+ "}")).
      case_decide as Heq.
      * injection Heq as Heq. rewrite Heq, <- IH'. apply replaceFrom_hit.
      * rewrite <- IH'. apply (replaceFrom_other b b'); [done..|]. congruence.
    + rewrite decide_False.
      * rewrite <- IH'. by apply replaceFrom_pass.
      * intros Heq. unfold noOpenBrace in Hfm. rewrite Heq in Hfm.
        simpl in Hfm. discriminate.
Qed.

End TokenFacts.

(** ** The loop body of [formatCommand] *)

Section PlaceHolderValueFacts.
Context `{TargetPaths}.
Implicit Types (m : Submatch) (cmd v : string).
Implicit Types (ins outs : gmap string FileTarget) (params : gmap string string).

Lemma placeHolderValue_Ok_iff m cmd ins outs params v :
  placeHolderValue m cmd ins outs params = Ok v ↔ resolvesTo m ins outs params v.
Proof.
  unfold placeHolderValue, resolvesTo, tokenValue.
  destruct m as [text typ name]; cbn [m1 m2].
  repeat (match goal with
          | |- context [decide ?P] => destruct (decide P)
          | |- context [?m !! ?k] => destruct (m !! k) eqn:?
          | |- context [doStream ?t] => destruct (doStream t) eqn:?
          end;
          cbn [mbind mret Result_bind Result_ret option_bind fmap
               option_fmap option_map Check default]);
    unfold mret, Result_ret, id; naive_solver.
Qed.

End PlaceHolderValueFacts.

(** ** The loop of [formatCommand] *)

Section FormatterFacts.
Context `{TargetPaths}.
Implicit Types (m : Submatch) (cmd v : string) (ms : list Submatch).
Implicit Types (ins outs : gmap string FileTarget) (params : gmap string string).

(** Whether the loop body panics does not depend on the command so far. *)
Lemma placeHolderValue_Panic m cmd cmd' ins outs params msg :
  placeHolderValue m cmd ins outs params = Panic msg →
  ∃ msg', placeHolderValue m cmd' ins outs params = Panic msg'.
Proof.
  intros Hp. destruct (placeHolderValue m cmd' ins outs params) as [v|msg'] eqn:Hv.
  - apply placeHolderValue_Ok_iff in Hv.
    apply (placeHolderValue_Ok_iff m cmd) in Hv. congruence.
  - by exists msg'.
Qed.

(** One token that does not resolve makes the whole loop panic. *)
Lemma replacePlaceHolders_Panic ms m cmd ins outs params :
  m ∈ ms → (∀ v, ¬ resolvesTo m ins outs params v) →
  ∃ msg, replacePlaceHolders ms cmd ins outs params = Panic msg.
Proof.
  intros Hin Hno. revert cmd.
  induction ms as [|m' ms IH]; intros cmd; [by apply elem_of_nil in Hin|].
  cbn [replacePlaceHolders].
  destruct (placeHolderValue m' cmd ins outs params) as [v|msg] eqn:Hv;
    cbn [mbind Result_bind]; [|by exists msg].
  apply elem_of_cons in Hin as [->|Hin].
  - apply placeHolderValue_Ok_iff in Hv. by destruct (Hno v).
  - by apply IH.
Qed.

(** When the loop returns, every token resolved to a non-empty value. *)
Lemma replacePlaceHolders_Ok ms m cmd ins outs params r :
  replacePlaceHolders ms cmd ins outs params = Ok r → m ∈ ms →
  ∃ v, resolvesTo m ins outs params v.
Proof.
  intros Hok Hin.
  destruct (placeHolderValue m cmd ins outs params) as [v|msg] eqn:Hv.
  - exists v. by apply placeHolderValue_Ok_iff in Hv.
  - destruct (replacePlaceHolders_Panic ms m cmd ins outs params Hin)
      as [msg' Hmsg]; [|congruence].
    intros v Hres. apply (placeHolderValue_Ok_iff m cmd) in Hres. congruence.
Qed.

Lemma replacePlaceHolders_render (items : list PlaceHolder.Item) ms
    (done : list Submatch) ins outs params :
  (∀ c, PlaceHolder.Chr c ∈ items → c ≠ "{"%char) →
  (∀ m, PlaceHolder.Tok m ∈ items →
     wellFormed m ∧ resolvesTo m ins outs params (valueOf ins outs params m) ∧
     noOpenBrace (valueOf ins outs params m)) →
  (∀ m, m ∈ ms → PlaceHolder.Tok m ∈ items) →
  replacePlaceHolders ms
    (PlaceHolder.render (writtenAfter ins outs params done) items)
    ins outs params
  = Ok (PlaceHolder.render (writtenAfter ins outs params (done ++ ms)) items).
Proof.
  intros Hchr Htok. revert done.
  induction ms as [|mt ms IH]; intros done Hms.
  { by rewrite app_nil_r. }
  cbn [replacePlaceHolders].
  destruct (Htok mt) as (Hwf & Hres & Hval); [apply Hms; left|].
  apply (placeHolderValue_Ok_iff mt
           (PlaceHolder.render (writtenAfter ins outs params done) items))
    in Hres.
  rewrite Hres. cbn [mbind Result_bind].
  rewrite Replace_render; [|done| |done].
  - rewrite (render_ext _ (writtenAfter ins outs params (done ++ [mt]))).
    + rewrite IH; [|intros; apply Hms; by right].
      by rewrite <- app_assoc.
    + intros m Hm. destruct (Htok m Hm) as (Hwfm & _ & Hvalm).
      unfold writtenAfter.
      destruct (decide (m ∈ done)) as [Hd|Hd].
      * rewrite (decide_True (P := m ∈ done ++ [mt])) by set_solver.
        rewrite decide_False; [done|].
        intros Heq. unfold noOpenBrace in Hvalm. rewrite Heq in Hvalm.
        by rewrite (wellFormed_open_brace mt Hwf) in Hvalm.
      * destruct (decide (m0 m = m0 mt)) as [Heq|Hne].
        -- apply wellFormed_inj in Heq as ->; [|done..].
           by rewrite (decide_True (P := mt ∈ done ++ [mt])) by set_solver.
        -- rewrite (decide_False (P := m ∈ done ++ [mt])); [done|].
           intros [?| ->%list_elem_of_singleton]%elem_of_app; done.
  - intros m Hm. destruct (Htok m Hm) as (Hwfm & _ & Hvalm).
    split; [done|]. unfold writtenAfter. case_decide; [by right|by left].
Qed.

(** The sequential replacement of the loop, over any list [ms] that holds
    exactly the tokens of the pattern, is the substitution of all tokens
    at once. *)
Lemma replacePlaceHolders_substituted cmd ms ins outs params :
  everyBraceOpensToken cmd = true →
  (∀ m, m ∈ FindAllStringSubmatch cmd →
     ∃ v, resolvesTo m ins outs params v ∧ noOpenBrace v) →
  (∀ m, m ∈ ms ↔ m ∈ FindAllStringSubmatch cmd) →
  replacePlaceHolders ms cmd ins outs params
  = Ok (substituted cmd ins outs params) ∧
  noOpenBrace (substituted cmd ins outs params).
Proof.
  intros Hbrace Hval Hms.
  assert (∀ c, PlaceHolder.Chr c ∈ PlaceHolder.scan cmd → c ≠ "{"%char) as Hchr.
  { intros c Hc. unfold everyBraceOpensToken in Hbrace.
    rewrite forallb_forall in Hbrace. apply list_elem_of_In, Hbrace in Hc.
    by apply negb_true_iff, ascii_eqb_false in Hc. }
  assert (∀ m, PlaceHolder.Tok m ∈ PlaceHolder.scan cmd →
            wellFormed m ∧
            resolvesTo m ins outs params (valueOf ins outs params m) ∧
            noOpenBrace (valueOf ins outs params m))
    as Htok.
  { intros m Hm. apply elem_of_tokens in Hm.
    destruct (Hval m Hm) as (v & Hres & Hnb).
    assert (valueOf ins outs params m = v) as ->.
    { unfold valueOf. by destruct Hres as [-> _]. }
    split; [by eapply FindAllStringSubmatch_wellFormed|done]. }
  split.
  - pose proof (replacePlaceHolders_render (PlaceHolder.scan cmd) ms []
                  ins outs params Hchr Htok) as Hloop.
    erewrite (render_ext _ m0) in Hloop.
    + rewrite scan_render in Hloop. rewrite Hloop.
      * f_equal. apply render_ext. intros m Hm. unfold writtenAfter.
        rewrite decide_True; [done|]. apply Hms. by apply elem_of_tokens.
      * intros m Hm. apply elem_of_tokens. by apply Hms.
    + intros m _. unfold writtenAfter.
      rewrite decide_False; [done|]. apply not_elem_of_nil.
  - apply render_no_brace; [done|]. intros m Hm. by apply Htok.
Qed.

End FormatterFacts.

(** ** The command formatter: the claims *)

Section FormatterClaims.
Context `{TargetPaths}.
Implicit Types (m : Submatch) (cmd prepend : string) (ms : list Submatch).
Implicit Types (ins outs : gmap string FileTarget) (params : gmap string string).

(** C4 (amended). When every opening brace of the pattern opens a
    placeholder token, every token of the pattern resolves (by its kind:
    [i] to the FIFO path of a streaming input and to the final path of any
    other input, the final path not being empty; [o] to the temporary path
    of the output; [os] to its FIFO path; [p] to the parameter value) to a
    non-empty value without an opening brace, and the prefix has no
    opening brace, then [formatCommand] returns the pattern with every
    occurrence of every token replaced by that value, after the prefix,
    and no placeholder token is left in the result. *)
Theorem formatCommand_resolves_tokens cmd ins outs params prepend :
  everyBraceOpensToken cmd = true →
  noOpenBrace prepend →
  (∀ m, m ∈ FindAllStringSubmatch cmd →
     ∃ v, resolvesTo m ins outs params v ∧ noOpenBrace v) →
  ∃ r, formatCommand cmd ins outs params prepend = Ok r ∧
       r = addPrepend prepend (substituted cmd ins outs params) ∧
       FindAllStringSubmatch r = [].
Proof.
  intros Hbrace Hpre Hval.
  destruct (replacePlaceHolders_substituted cmd (FindAllStringSubmatch cmd)
              ins outs params Hbrace Hval) as [Hloop Hnb]; [done|].
  eexists. split; [|split; [reflexivity|]].
  - unfold formatCommand. by rewrite Hloop.
  - apply FindAllStringSubmatch_no_brace.
    unfold addPrepend. case_decide; [done|].
    unfold noOpenBrace in *. by rewrite !occurs_append, Hpre, Hnb.
Qed.

(** C5. [formatCommand] panics, whatever the other tokens, the prefix and
    the mappings are, as soon as one token of the pattern names a port or
    parameter that its mapping does not have, or resolves to the empty
    string. *)
Theorem formatCommand_fails_on_missing_or_empty cmd ins outs params prepend m :
  m ∈ FindAllStringSubmatch cmd →
  (m1 m = "i" ∧ ins !! m2 m = None) ∨
  ((m1 m = "o" ∨ m1 m = "os") ∧ outs !! m2 m = None) ∨
  (m1 m = "p" ∧ params !! m2 m = None) ∨
  tokenValue (m1 m) (m2 m) ins outs params = Some "" →
  ∃ msg, formatCommand cmd ins outs params prepend = Panic msg.
Proof.
  intros Hm Hbad.
  destruct (replacePlaceHolders_Panic (FindAllStringSubmatch cmd) m cmd
              ins outs params Hm) as [msg Hmsg].
  - intros v (Hv & Hne & _).
    destruct m as [text typ name]; cbn [m1 m2] in *. unfold tokenValue in Hv.
    destruct Hbad as [[-> Hl]|[[Hk Hl]|[[-> Hl]|Hempty]]].
    + by rewrite Hl in Hv.
    + rewrite Hl in Hv. by destruct Hk as [->| ->].
    + by rewrite Hl in Hv.
    + unfold tokenValue in Hempty. congruence.
  - exists msg. unfold formatCommand. by rewrite Hmsg.
Qed.

(** The other way round: when [formatCommand] returns, no token of the
    pattern was replaced by the empty string. *)
Lemma formatCommand_Ok_values cmd ins outs params prepend r m :
  formatCommand cmd ins outs params prepend = Ok r →
  m ∈ FindAllStringSubmatch cmd →
  ∃ v, tokenValue (m1 m) (m2 m) ins outs params = Some v ∧ v ≠ "".
Proof.
  unfold formatCommand. intros Hok Hm.
  destruct (replacePlaceHolders _ cmd ins outs params) as [cmd'|msg] eqn:Hloop;
    [|done].
  destruct (replacePlaceHolders_Ok _ m _ _ _ _ _ Hloop Hm) as (v & Hv & Hne & _).
  by exists v.
Qed.

(** C6 (amended). When every opening brace of the pattern opens a
    placeholder token and every token of the pattern resolves to a
    non-empty value without an opening brace, running the loop of
    [formatCommand] over the tokens in any order [ms] gives the string
    that [formatCommand] returns. *)
Theorem formatCommand_order_independent cmd ins outs params prepend ms :
  everyBraceOpensToken cmd = true →
  (∀ m, m ∈ FindAllStringSubmatch cmd →
     ∃ v, resolvesTo m ins outs params v ∧ noOpenBrace v) →
  ms ≡ₚ FindAllStringSubmatch cmd →
  (replacePlaceHolders ms cmd ins outs params
     ≫= λ cmd', mret (addPrepend prepend cmd'))
  = formatCommand cmd ins outs params prepend.
Proof.
  intros Hbrace Hval Hperm. unfold formatCommand.
  destruct (replacePlaceHolders_substituted cmd (FindAllStringSubmatch cmd)
              ins outs params Hbrace Hval) as [-> _]; [done|].
  destruct (replacePlaceHolders_substituted cmd ms
              ins outs params Hbrace Hval) as [-> _]; [|done].
  intros m. by rewrite Hperm.
Qed.

(** C7. A command without placeholder tokens, formatted with the empty
    prefix, is returned as it is, whatever the mappings are. *)
Theorem formatCommand_no_placeholders cmd ins outs params :
  FindAllStringSubmatch cmd = [] →
  formatCommand cmd ins outs params "" = Ok cmd.
Proof. intros Hnone. unfold formatCommand. by rewrite Hnone. Qed.

End FormatterClaims.

(** *** The claims on examples *)

Section FormatterExamples.
#[local] Existing Instance upstreamPaths.

(** The scenario of the specification. *)
Example formatCommand_scenario :
  formatCommand examplePattern exampleIn exampleOut exampleParams ""
  = Ok "tool -i /data/a.txt -o /data/a.out.tmp -p 3".
Proof. reflexivity. Qed.

(** C4 (amended) on the scenario. *)
Lemma formatCommand_resolves_tokens_witness :
  everyBraceOpensToken examplePattern = true ∧
  ∃ r, formatCommand examplePattern exampleIn exampleOut exampleParams "" = Ok r ∧
       r = addPrepend "" (substituted examplePattern exampleIn exampleOut exampleParams) ∧
       FindAllStringSubmatch r = [].
Proof.
  split; [reflexivity|].
  apply (formatCommand_resolves_tokens examplePattern exampleIn exampleOut
           exampleParams ""); [reflexivity|reflexivity|].
  intros m Hm. vm_compute in Hm.
  repeat (apply elem_of_cons in Hm as [->|Hm]);
    [..|by apply elem_of_nil in Hm];
    (eexists; split; [split; [reflexivity|split; [discriminate|]]|reflexivity]).
  - intros _ tgt [= <-]. discriminate.
  - discriminate.
  - discriminate.
Defined.

(** C4, as stated, fails: with a value that is itself a placeholder of
    the pattern, that placeholder is left in the result. *)
Lemma formatCommand_leaves_placeholder :
  mkSubmatch "{p:a}" "p" "a" ∈ FindAllStringSubmatch "{p:a} {p:b}" ∧
  formatCommand "{p:a} {p:b}" ∅ ∅ {[ "a" := "x"; "b" := "{p:a}" ]} ""
  = Ok "x {p:a}" ∧
  FindAllStringSubmatch "x {p:a}" = [mkSubmatch "{p:a}" "p" "a"].
Proof. split; [left|split; reflexivity]. Qed.

(** A token inside braces of the pattern, and a prefix with a
    placeholder, leave a placeholder too. *)
Example formatCommand_completes_placeholder :
  formatCommand "{p:{p:a}}" ∅ ∅ {[ "a" := "b" ]} "" = Ok "{p:b}".
Proof. reflexivity. Qed.

Example formatCommand_prefix_placeholder :
  formatCommand "ls {p:a}" ∅ ∅ {[ "a" := "b" ]} "{p:a}" = Ok "{p:a} ls b".
Proof. reflexivity. Qed.

(** Without braces in the values, the order still matters for a token
    inside braces of the pattern. *)
Example formatCommand_order_matters_nested :
  formatCommand "{p:{p:a}} {p:x}" ∅ ∅ {[ "a" := "x"; "x" := "1" ]} ""
  = Ok "1 1" ∧
  replacePlaceHolders (reverse (FindAllStringSubmatch "{p:{p:a}} {p:x}"))
    "{p:{p:a}} {p:x}" ∅ ∅ {[ "a" := "x"; "x" := "1" ]}
  = Ok "{p:x} 1".
Proof. split; reflexivity. Qed.

(** C5 on a pattern that names an input that is not there. *)
Lemma formatCommand_fails_on_missing_or_empty_witness :
  mkSubmatch "{i:other}" "i" "other" ∈ FindAllStringSubmatch "cat {i:other}" ∧
  ∃ msg, formatCommand "cat {i:other}" exampleIn exampleOut exampleParams ""
         = Panic msg.
Proof.
  assert (mkSubmatch "{i:other}" "i" "other"
          ∈ FindAllStringSubmatch "cat {i:other}") as Hm by left.
  split; [exact Hm|].
  apply (formatCommand_fails_on_missing_or_empty _ _ _ _ _ _ Hm).
  left. split; reflexivity.
Defined.

(** C6, as stated, fails: with a value that is itself a placeholder, the
    two orders of two tokens give two strings. *)
Lemma formatCommand_order_matters :
  reverse (FindAllStringSubmatch "{p:a} {p:b}") ≡ₚ FindAllStringSubmatch "{p:a} {p:b}" ∧
  formatCommand "{p:a} {p:b}" ∅ ∅ {[ "a" := "{p:b}"; "b" := "x" ]} ""
  = Ok "x x" ∧
  (replacePlaceHolders (reverse (FindAllStringSubmatch "{p:a} {p:b}"))
     "{p:a} {p:b}" ∅ ∅ {[ "a" := "{p:b}"; "b" := "x" ]}
     ≫= λ cmd', mret (addPrepend "" cmd'))
  = Ok "{p:b} x".
Proof. split; [apply reverse_Permutation|split; reflexivity]. Qed.

(** C6 (amended) on the scenario, for the reverse order. *)
Lemma formatCommand_order_independent_witness :
  reverse (FindAllStringSubmatch examplePattern) ≡ₚ FindAllStringSubmatch examplePattern ∧
  (replacePlaceHolders (reverse (FindAllStringSubmatch examplePattern))
     examplePattern exampleIn exampleOut exampleParams
     ≫= λ cmd', mret (addPrepend "" cmd'))
  = formatCommand examplePattern exampleIn exampleOut exampleParams "".
Proof.
  assert (reverse (FindAllStringSubmatch examplePattern)
          ≡ₚ FindAllStringSubmatch examplePattern) as Hperm
    by apply reverse_Permutation.
  split; [exact Hperm|].
  apply (formatCommand_order_independent examplePattern exampleIn exampleOut
           exampleParams "" _); [reflexivity| |exact Hperm].
  intros m Hm. vm_compute in Hm.
  repeat (apply elem_of_cons in Hm as [->|Hm]);
    [..|by apply elem_of_nil in Hm];
    (eexists; split; [split; [reflexivity|split; [discriminate|]]|reflexivity]).
  - intros _ tgt [= <-]. discriminate.
  - discriminate.
  - discriminate.
Defined.

(** C7 on a command with braces that are no placeholder. *)
Lemma formatCommand_no_placeholders_witness :
  FindAllStringSubmatch "ls -l {x}" = [] ∧
  formatCommand "ls -l {x}" exampleIn exampleOut exampleParams "" = Ok "ls -l {x}".
Proof.
  split; [reflexivity|].
  apply (formatCommand_no_placeholders "ls -l {x}"). reflexivity.
Defined.

End FormatterExamples.

(** ** The executor *)

Section ExecutorFacts.
Context `{TargetPaths} {Strategy : Type} `{!Runtime Strategy}.
Implicit Types (t : SciTask Strategy) (w : World Strategy).
Implicit Types (fs : gset string) (tgt : FileTarget).

(** A loop whose body only reads the world. *)
Lemma forRange_pure {A S} (l : list A) (s : S)
    (body : S → A → Exec Strategy S) (step : S → A → S) w :
  (∀ s x, body s x w = (Ok (step s x), w)) →
  forRange l s body w = (Ok (foldl step s l), w).
Proof.
  intros Hbody. revert s. induction l as [|x l IH]; intros s; [done|].
  cbn [forRange foldl]. unfold mbind, Exec_bind. by rewrite Hbody, IH.
Qed.

Lemma foldl_flag {A} (p : A → bool) (l : list A) (b : bool) :
  foldl (λ acc x, if p x then true else acc) b l = b || existsb p l.
Proof.
  revert b. induction l as [|x l IH]; intros b; simpl.
  - by rewrite orb_false_r.
  - rewrite IH. by destruct (p x), b.
Qed.

Lemma anyOutputExists_spec t w :
  anyOutputExists t w = (Ok (outputExistsB t (files w)), w).
Proof.
  unfold anyOutputExists.
  erewrite (forRange_pure _ _ _
    (λ acc entry, if negb (doStream entry.2) &&
                     (bool_decide (GetPath entry.2 ∈ files w) ||
                      bool_decide (GetTempPath entry.2 ∈ files w))
                  then true else acc)).
  - by rewrite foldl_flag.
  - intros acc [oname tgt]. cbn. unfold mbind, Exec_bind, Stat, mret, Exec_ret. cbn.
    destruct (doStream tgt); cbn; [done|].
    by destruct (bool_decide (GetPath tgt ∈ files w)),
      (bool_decide (GetTempPath tgt ∈ files w)).
Qed.

Lemma fifosInOutTargetsMissing_spec t w :
  fifosInOutTargetsMissing t w = (Ok (fifoMissingB t (files w)), w).
Proof.
  unfold fifosInOutTargetsMissing.
  erewrite (forRange_pure _ _ _
    (λ acc entry, if doStream entry.2 &&
                     negb (bool_decide (GetFifoPath entry.2 ∈ files w))
                  then true else acc)).
  - by rewrite foldl_flag.
  - intros acc [oname tgt]. cbn. unfold mbind, Exec_bind, Stat, mret, Exec_ret. cbn.
    destruct (doStream tgt); cbn; [|done].
    by destruct (bool_decide (GetFifoPath tgt ∈ files w)).
Qed.

Lemma outputExistsB_true t fs :
  outputExistsB t fs = true ↔ outputExists t fs.
Proof.
  unfold outputExistsB, outputExists. rewrite existsb_exists. split.
  - intros ([oname tgt] & Hin & Hp).
    apply list_elem_of_In, elem_of_map_to_list in Hin.
    apply andb_true_iff in Hp as [Hs Hp]. apply negb_true_iff in Hs.
    apply orb_true_iff in Hp. rewrite !bool_decide_eq_true in Hp.
    by exists oname, tgt.
  - intros (oname & tgt & Hl & Hs & Hp). exists (oname, tgt). split.
    + by apply list_elem_of_In, elem_of_map_to_list.
    + cbn. rewrite Hs. cbn. apply orb_true_iff.
      by rewrite !bool_decide_eq_true.
Qed.

Lemma fifoMissingB_true t fs :
  fifoMissingB t fs = true ↔ fifoMissing t fs.
Proof.
  unfold fifoMissingB, fifoMissing. rewrite existsb_exists. split.
  - intros ([oname tgt] & Hin & Hp).
    apply list_elem_of_In, elem_of_map_to_list in Hin.
    apply andb_true_iff in Hp as [Hs Hp]. apply negb_true_iff in Hp.
    apply bool_decide_eq_false in Hp.
    by exists oname, tgt.
  - intros (oname & tgt & Hl & Hs & Hp). exists (oname, tgt). split.
    + by apply list_elem_of_In, elem_of_map_to_list.
    + cbn. rewrite Hs. cbn. by apply negb_true_iff, bool_decide_eq_false.
Qed.

Lemma skipCondition_bool t fs :
  skipCondition t fs ↔ outputExistsB t fs || fifoMissingB t fs = true.
Proof.
  unfold skipCondition.
  by rewrite orb_true_iff, outputExistsB_true, fifoMissingB_true.
Qed.

(** Whether [Execute] skips is decided on the files it starts with. *)
Lemma skipCondition_dec t fs : Decision (skipCondition t fs).
Proof.
  destruct (outputExistsB t fs || fifoMissingB t fs) eqn:Hb.
  - left. by apply skipCondition_bool.
  - right. rewrite skipCondition_bool. congruence.
Qed.

(** The loop of [atomizeTargets] over a list of entries. *)
Lemma atomize_loop (l : list (string * FileTarget)) w :
  forRange l tt (λ (_ : unit) (entry : string * FileTarget),
    let '(oname, tgt) := entry in
    if negb (doStream tgt) then
      emit (Atomized oname tgt);; _ ← Atomize tgt; mret tt
    else mret tt) w
  = (Ok tt,
     {| files := foldl renamed (files w)
                   (filter (λ entry, doStream entry.2 = false) l).*2;
        events := events w ++
                  map (λ entry, Atomized entry.1 entry.2)
                    (filter (λ entry, doStream entry.2 = false) l) |}).
Proof.
  revert w. induction l as [|[oname tgt] l IH]; intros w.
  - cbn. rewrite app_nil_r. by destruct w.
  - destruct (doStream tgt) eqn:Hs.
    + rewrite filter_cons_False by (cbn; congruence).
      cbn [forRange]. unfold mbind at 1. unfold Exec_bind at 1.
      rewrite Hs. cbn [negb mret Exec_ret]. apply IH.
    + rewrite filter_cons_True by done.
      cbn [forRange]. unfold mbind at 1. unfold Exec_bind at 1.
      rewrite Hs. cbn [negb].
      unfold mbind at 1 2, Exec_bind at 1 2, emit, Atomize, mret, Exec_ret.
      cbn [fmap list_fmap foldl map fst snd files events].
      unfold renamed at 2.
      destruct (bool_decide (GetTempPath tgt ∈ files w));
        rewrite IH; cbn [files events]; by rewrite <- app_assoc.
Qed.

Lemma atomizeTargets_spec t w :
  atomizeTargets t w
  = (Ok tt,
     {| files := foldl renamed (files w) (filesToAtomize t).*2;
        events := events w ++
                  map (λ entry, Atomized entry.1 entry.2) (filesToAtomize t) |}).
Proof. apply atomize_loop. Qed.

(** [Execute] on the skip branch. *)
Lemma Execute_skip t w :
  skipCondition t (files w) →
  Execute t w
  = (Ok tt, {| files := files w;
               events := events w ++ [DoneSent 1; DoneClosed] |}).
Proof.
  intros Hskip%skipCondition_bool.
  unfold Execute, defer, mbind, Exec_bind.
  rewrite anyOutputExists_spec.
  destruct (outputExistsB t (files w)) eqn:Hout; cbn.
  - by rewrite <- app_assoc.
  - rewrite fifosInOutTargetsMissing_spec.
    cbn in Hskip. rewrite Hskip. cbn. by rewrite <- app_assoc.
Qed.

(** [Execute] on the run branch. *)
Lemma Execute_run t w :
  ¬ skipCondition t (files w) →
  Execute t w
  = match (strategyResult t (files w)).2 with
    | Some msg =>
        (Panic msg,
         {| files := (strategyResult t (files w)).1;
            events := events w ++ [strategyEvent t; DoneClosed] |})
    | None =>
        (Ok tt,
         {| files := foldl renamed (strategyResult t (files w)).1
                       (filesToAtomize t).*2;
            events := events w ++
                      strategyEvent t ::
                      map (λ entry, Atomized entry.1 entry.2) (filesToAtomize t) ++
                      [DoneSent 1; DoneClosed] |})
    end.
Proof.
  intros Hrun. rewrite skipCondition_bool in Hrun.
  apply not_true_is_false, orb_false_elim in Hrun as [Hout Hfifo].
  unfold Execute, defer, mbind, Exec_bind.
  rewrite anyOutputExists_spec, Hout. cbn [negb].
  rewrite fifosInOutTargetsMissing_spec, Hfifo. cbn [negb mret Exec_ret].
  unfold strategyResult, strategyEvent.
  destruct (CustomExecute t) as [f|].
  - unfold customExecute, mbind, Exec_bind, emit, check. cbn.
    destruct (callCustom f t (files w)) as [fs [msg|]]; cbn.
    + by rewrite <- app_assoc.
    + rewrite atomizeTargets_spec. cbn.
      by rewrite <- !app_assoc.
  - unfold executeCommand, mbind, Exec_bind, emit, check. cbn.
    destruct (bash (Command t) (files w)) as [fs [msg|]]; cbn.
    + by rewrite <- app_assoc.
    + rewrite atomizeTargets_spec. cbn.
      by rewrite <- !app_assoc.
Qed.

End ExecutorFacts.

(** ** The executor: the claims *)

Section ExecutorClaims.
Context `{TargetPaths} {Strategy : Type} `{!Runtime Strategy}.
Implicit Types (t : SciTask Strategy) (w : World Strategy).
Implicit Types (fs : gset string) (tgt : FileTarget).

Lemma atomizations_app oname (evs evs' : list (Event Strategy)) :
  atomizations oname (evs ++ evs') = atomizations oname evs + atomizations oname evs'.
Proof. unfold atomizations. by rewrite List.filter_app, length_app. Qed.

Lemma atomizations_entries oname (l : list (string * FileTarget)) :
  NoDup l.*1 →
  atomizations oname (map (λ entry, Atomized (Strategy := Strategy) entry.1 entry.2) l)
  = if decide (oname ∈ l.*1) then 1 else 0.
Proof.
  unfold atomizations.
  induction l as [|[o tgt] l IH]; intros Hnd; [done|].
  apply NoDup_cons in Hnd as [Hnotin Hnd]. cbn.
  destruct (decide (o = oname)) as [->|Hne].
  - rewrite bool_decide_eq_true_2 by done. cbn. rewrite IH by done.
    rewrite decide_False by done. rewrite decide_True; [done|left].
  - rewrite bool_decide_eq_false_2 by done. rewrite IH by done.
    destruct (decide (oname ∈ l.*1)).
    + rewrite decide_True; [done|by right].
    + rewrite decide_False; [done|].
      intros [?|?]%elem_of_cons; done.
Qed.

Lemma elem_of_filesToAtomize t oname tgt :
  (oname, tgt) ∈ filesToAtomize t ↔
  OutTargets t !! oname = Some tgt ∧ doStream tgt = false.
Proof.
  unfold filesToAtomize.
  rewrite list_elem_of_filter, elem_of_map_to_list. cbn. tauto.
Qed.

Lemma NoDup_filesToAtomize t : NoDup (filesToAtomize t).*1.
Proof.
  eapply sublist_NoDup; [apply (NoDup_fst_map_to_list (OutTargets t))|].
  apply fmap_sublist, sublist_filter.
Qed.

Lemma elem_of_atomized_entries oname tgt (l : list (string * FileTarget)) :
  Atomized (Strategy := Strategy) oname tgt
    ∈ map (λ entry, Atomized entry.1 entry.2) l ↔ (oname, tgt) ∈ l.
Proof.
  change (map ?f l) with (f <$> l). rewrite list_elem_of_fmap. split.
  - by intros ([o tg] & [= -> ->] & Hin).
  - intros Hin. by exists (oname, tgt).
Qed.

(** C1. [Execute] invokes no execution strategy, custom or shell, exactly
    when a non-streaming out-target has its final or its temporary path
    among the files it starts with, or a streaming out-target does not
    have its FIFO path among them; the skip returns normally, leaves the
    files as they are and does nothing but signal completion. *)
Theorem Execute_skips_iff t w :
  ∃ evs, events (Execute t w).2 = events w ++ evs ∧
    ((∀ ev, ev ∈ evs → isInvocation ev = false) ↔ skipCondition t (files w)) ∧
    (skipCondition t (files w) →
       (Execute t w).1 = Ok tt ∧ files (Execute t w).2 = files w ∧
       evs = [DoneSent 1; DoneClosed]).
Proof.
  destruct (skipCondition_dec t (files w)) as [Hskip|Hrun].
  - rewrite (Execute_skip t w Hskip). cbn. eexists. split; [done|]. split; [|done].
    split; [done|]. intros _ ev. rewrite !elem_of_cons, elem_of_nil.
    by intros [->|[->|[]]].
  - rewrite (Execute_run t w Hrun).
    assert (isInvocation (strategyEvent t) = true) as Hinv.
    { unfold strategyEvent. by destruct (CustomExecute t). }
    destruct (strategyResult t (files w)).2 as [msg|]; cbn;
      (eexists; split; [done|]; split; [|done]);
      (split; [|done]); intros Hnone;
      rewrite Hnone in Hinv by left; done.
Qed.

(** C2. When the task is not skipped and its execution strategy returns
    without an error, what follows the invocation of the strategy is the
    atomization of the out-targets and the completion signal: every
    non-streaming out-target is atomized exactly once, a streaming
    out-target is never atomized, nothing else is atomized, and the files
    are those the strategy left with each temporary path renamed to its
    final path.  A skipped task atomizes nothing. *)
Theorem Execute_atomizes_once t w :
  ∃ evs, events (Execute t w).2 = events w ++ evs ∧
    (skipCondition t (files w) → ∀ ev, ev ∈ evs → isAtomized ev = false) ∧
    (¬ skipCondition t (files w) → (strategyResult t (files w)).2 = None →
       (∃ atomized,
          evs = strategyEvent t :: atomized ++ [DoneSent 1; DoneClosed] ∧
          ∀ ev, ev ∈ atomized → isAtomized ev = true) ∧
       (∀ oname tgt, OutTargets t !! oname = Some tgt →
          atomizations oname evs = (if doStream tgt then 0 else 1)) ∧
       (∀ oname tgt, Atomized oname tgt ∈ evs →
          OutTargets t !! oname = Some tgt ∧ doStream tgt = false) ∧
       files (Execute t w).2
       = foldl renamed (strategyResult t (files w)).1 (filesToAtomize t).*2).
Proof.
  destruct (skipCondition_dec t (files w)) as [Hskip|Hrun].
  - rewrite (Execute_skip t w Hskip). cbn. eexists. split; [done|].
    split; [|done]. intros _ ev. rewrite !elem_of_cons, elem_of_nil.
    by intros [->|[->|[]]].
  - rewrite (Execute_run t w Hrun).
    destruct (strategyResult t (files w)).2 as [msg|] eqn:Herr; cbn.
    { eexists. split; [done|]. done. }
    eexists. split; [done|]. split; [done|]. intros _ _.
    split; [|split; [|split; [|done]]].
    + eexists. split; [done|]. intros ev.
      change (map ?f ?l) with (f <$> l). rewrite list_elem_of_fmap.
      by intros (entry & -> & _).
    + intros oname tgt Hl.
      change (?e :: ?l ++ ?l') with ([e] ++ l ++ l').
      rewrite !atomizations_app, atomizations_entries
        by apply NoDup_filesToAtomize.
      assert (atomizations oname [strategyEvent t] = 0) as ->.
      { unfold strategyEvent. by destruct (CustomExecute t). }
      cbn. rewrite Nat.add_0_r.
      destruct (doStream tgt) eqn:Hst.
      * rewrite decide_False; [done|].
        intros ([o tg] & Ho & [Hl' Hs']%elem_of_filesToAtomize)%list_elem_of_fmap.
        cbn in Ho. subst o. congruence.
      * rewrite decide_True; [done|].
        apply list_elem_of_fmap. exists (oname, tgt). split; [done|].
        by apply elem_of_filesToAtomize.
    + intros oname tgt. rewrite elem_of_cons, elem_of_app.
      intros [Hev|[Hev|Hev]].
      * unfold strategyEvent in Hev. by destruct (CustomExecute t).
      * by apply elem_of_atomized_entries, elem_of_filesToAtomize in Hev.
      * apply elem_of_cons in Hev as [?|Hev]; [done|].
        apply elem_of_cons in Hev as [?|Hev]; [done|].
        by apply elem_of_nil in Hev.
Qed.

(** C3. On the skip branch, and on the run branch once the execution
    strategy has returned without an error, [Execute] returns normally
    and the last two things it does are to send the completion signal
    and to close [Done]; nothing before them touches [Done]. *)
Theorem Execute_signals_done_once t w :
  skipCondition t (files w) ∨ (strategyResult t (files w)).2 = None →
  (Execute t w).1 = Ok tt ∧
  ∃ before, events (Execute t w).2 = events w ++ before ++ [DoneSent 1; DoneClosed] ∧
            ∀ ev, ev ∈ before → isDone ev = false.
Proof.
  intros Hbranch.
  destruct (skipCondition_dec t (files w)) as [Hskip|Hrun].
  - rewrite (Execute_skip t w Hskip). cbn. split; [done|].
    exists []. split; [done|]. by intros ev ?%elem_of_nil.
  - destruct Hbranch as [?|Herr]; [done|].
    rewrite (Execute_run t w Hrun), Herr. cbn. split; [done|].
    eexists (_ :: _). split; [done|].
    intros ev [->|Hev]%elem_of_cons.
    + unfold strategyEvent. by destruct (CustomExecute t).
    + change (map ?f ?l) with (f <$> l) in Hev.
      apply list_elem_of_fmap in Hev as (entry & -> & _). done.
Qed.

(** When the strategy ends with an error, [Execute] panics with it: the
    deferred close of [Done] still runs, the signal is not sent. *)
Lemma Execute_abort t w msg :
  ¬ skipCondition t (files w) → (strategyResult t (files w)).2 = Some msg →
  (Execute t w).1 = Panic msg ∧
  events (Execute t w).2 = events w ++ [strategyEvent t; DoneClosed].
Proof. intros Hrun Herr. by rewrite (Execute_run t w Hrun), Herr. Qed.

End ExecutorClaims.

(** ** Construction *)

Section ConstructionFacts.
Context `{TargetPaths} {Strategy : Type}.
Implicit Types (t : SciTask Strategy) (st : OutLoop Strategy).
Implicit Types (l : list (string * PathFunc Strategy)).
Implicit Types (streams : gmap string bool).

Lemma createOutTarget_outTargets t streams st oname f :
  outTargets (createOutTarget t streams st (oname, f))
  = <[oname := outTargetOf t streams oname f]> (outTargets st).
Proof.
  unfold createOutTarget, outTargetOf, NewFileTarget. cbn.
  by destruct (default false (streams !! oname)).
Qed.

Lemma createOutTargets_calls t streams l st :
  calls (foldl (createOutTarget t streams) st l)
  = calls st ++ map (λ entry, (entry.1, t)) l.
Proof.
  revert st. induction l as [|[oname f] l IH]; intros st; cbn [foldl map].
  - by rewrite app_nil_r.
  - rewrite IH. cbn. by rewrite <- app_assoc.
Qed.

Lemma createOutTargets_lookup_notin t streams l st oname :
  oname ∉ l.*1 →
  outTargets (foldl (createOutTarget t streams) st l) !! oname
  = outTargets st !! oname.
Proof.
  revert st. induction l as [|[o f] l IH]; intros st Hnotin; [done|].
  cbn [foldl]. apply not_elem_of_cons in Hnotin as [Hne Hnotin].
  rewrite IH by done. rewrite createOutTarget_outTargets.
  by rewrite lookup_insert_ne.
Qed.

Lemma createOutTargets_lookup_in t streams l st oname f :
  NoDup l.*1 → (oname, f) ∈ l →
  outTargets (foldl (createOutTarget t streams) st l) !! oname
  = Some (outTargetOf t streams oname f).
Proof.
  revert st. induction l as [|[o g] l IH]; intros st Hnd Hin.
  { by apply elem_of_nil in Hin. }
  apply NoDup_cons in Hnd as [Hnotin Hnd]. cbn [foldl].
  apply elem_of_cons in Hin as [[= -> ->]|Hin].
  - rewrite createOutTargets_lookup_notin by done.
    rewrite createOutTarget_outTargets. by rewrite lookup_insert_eq.
  - by apply IH.
Qed.

Lemma calls_of_port (t : SciTask Strategy) l oname :
  NoDup l.*1 →
  length (filter (λ call : string * SciTask Strategy, call.1 = oname)
            (map (λ entry, (entry.1, t)) l))
  = if decide (oname ∈ l.*1) then 1 else 0.
Proof.
  induction l as [|[o f] l IH]; intros Hnd; [done|].
  apply NoDup_cons in Hnd as [Hnotin Hnd]. cbn [map fst].
  destruct (decide (o = oname)) as [->|Hne].
  - rewrite filter_cons_True by done. cbn. rewrite IH by done.
    rewrite decide_False by done. rewrite decide_True; [done|left].
  - rewrite filter_cons_False by done. rewrite IH by done.
    destruct (decide (oname ∈ l.*1)).
    + rewrite decide_True; [done|by right].
    + rewrite decide_False; [done|]. intros [?|?]%elem_of_cons; done.
Qed.

Lemma elem_of_keys {A} (m : gmap string A) (k : string) :
  k ∈ (map_to_list m).*1 ↔ is_Some (m !! k).
Proof.
  rewrite list_elem_of_fmap. split.
  - intros ([k' x] & -> & Hin%elem_of_map_to_list). by exists x.
  - intros [x Hx]. exists (k, x). by rewrite elem_of_map_to_list.
Qed.

(** What [NewSciTask] returns, when the formatter does not panic. *)
Lemma NewSciTask_Ok name cmdPat ins (funcs : gmap string (PathFunc Strategy))
    streams params prepend t :
  NewSciTask name cmdPat ins funcs streams params prepend = Ok t →
  Name t = name ∧ InTargets t = ins ∧ Params t = params ∧
  CustomExecute t = None ∧
  OutTargets t
  = outTargets (createOutTargets (newTask name ins params) funcs streams) ∧
  formatCommand cmdPat ins (OutTargets t) params prepend = Ok (Command t).
Proof.
  unfold NewSciTask.
  destruct (formatCommand _ _ _ _ _) as [command|msg] eqn:Hfmt; [|done].
  cbn. intros [= <-]. cbn. by rewrite Hfmt.
Qed.

End ConstructionFacts.

Section ConstructionClaims.
Context `{TargetPaths} {Strategy : Type} `{!Runtime Strategy}.
Implicit Types (t : SciTask Strategy) (w : World Strategy).
Implicit Types (funcs : gmap string (PathFunc Strategy)).
Implicit Types (streams : gmap string bool).

(** Whatever [Execute] atomizes is an out-target of the task. *)
Lemma Execute_atomized_lookup t w :
  ∃ evs, events (Execute t w).2 = events w ++ evs ∧
    ∀ oname tgt, Atomized oname tgt ∈ evs → OutTargets t !! oname = Some tgt.
Proof.
  destruct (skipCondition_dec t (files w)) as [Hskip|Hrun].
  - rewrite (Execute_skip t w Hskip). cbn. eexists. split; [done|].
    intros oname tgt. rewrite !elem_of_cons, elem_of_nil. naive_solver.
  - rewrite (Execute_run t w Hrun).
    assert (∀ oname tgt, Atomized oname tgt ≠ strategyEvent t) as Hs.
    { intros oname tgt. unfold strategyEvent. by destruct (CustomExecute t). }
    destruct (strategyResult t (files w)).2 as [msg|]; cbn;
      (eexists; split; [done|]); intros oname tgt.
    + rewrite !elem_of_cons, elem_of_nil. intros [Hev|[?|[]]]; [|done].
      by destruct (Hs oname tgt).
    + rewrite elem_of_cons, elem_of_app, elem_of_atomized_entries,
        elem_of_filesToAtomize, !elem_of_cons, elem_of_nil.
      intros [Hev|[[? _]|[?|[?|[]]]]]; [|done..]. by destruct (Hs oname tgt).
Qed.

(** C8. When [NewSciTask] returns a task, the generator [f] of a port was
    called exactly once, on the task as it is during construction (the
    returned task without its out-targets and its command); the port's
    out-target has the path that this call gave, and that is the target
    that any later [Execute] of the task atomizes for the port. *)
Theorem NewSciTask_out_path name cmdPat ins funcs streams params prepend t
    oname f :
  NewSciTask name cmdPat ins funcs streams params prepend = Ok t →
  funcs !! oname = Some f →
  newTask name ins params
  = {| Name := Name t; Command := ""; CustomExecute := CustomExecute t;
       InTargets := InTargets t; OutTargets := ∅; Params := Params t |} ∧
  length (filter (λ call : string * SciTask Strategy, call.1 = oname)
            (generatorCalls name ins funcs streams params)) = 1 ∧
  ∃ tgt, OutTargets t !! oname = Some tgt ∧
         GetPath tgt = f (newTask name ins params) ∧
         ∀ w, ∃ evs, events (Execute t w).2 = events w ++ evs ∧
                     ∀ tgt', Atomized oname tgt' ∈ evs → tgt' = tgt.
Proof.
  intros (HN & HI & HP & HC & HO & _)%NewSciTask_Ok Hf.
  split; [|split].
  - unfold newTask. by rewrite HN, HI, HP, HC.
  - unfold generatorCalls, createOutTargets.
    rewrite createOutTargets_calls. cbn [calls app].
    rewrite calls_of_port by apply NoDup_fst_map_to_list.
    rewrite decide_True; [done|]. by apply elem_of_keys.
  - exists (outTargetOf (newTask name ins params) streams oname f).
    assert (OutTargets t !! oname
            = Some (outTargetOf (newTask name ins params) streams oname f))
      as Hl.
    { rewrite HO. unfold createOutTargets.
      apply createOutTargets_lookup_in; [apply NoDup_fst_map_to_list|].
      by apply elem_of_map_to_list. }
    split; [done|]. split; [done|]. intros w.
    destruct (Execute_atomized_lookup t w) as (evs & Hevs & Hat).
    exists evs. split; [done|]. intros tgt' Hev%Hat. congruence.
Qed.

(** C9. [NewSciTask] calls the generator of every port of [outPathFuncs]
    exactly once and no other, and each time passes a task whose
    [OutTargets] is empty and whose [Command] is the empty string. *)
Theorem NewSciTask_generator_calls name ins funcs streams params :
  (∀ oname,
     length (filter (λ call : string * SciTask Strategy, call.1 = oname)
               (generatorCalls name ins funcs streams params))
     = if decide (is_Some (funcs !! oname)) then 1 else 0) ∧
  (∀ oname t, (oname, t) ∈ generatorCalls name ins funcs streams params →
     OutTargets t = ∅ ∧ Command t = "").
Proof.
  unfold generatorCalls, createOutTargets. rewrite createOutTargets_calls.
  cbn [calls app]. split.
  - intros oname. rewrite calls_of_port by apply NoDup_fst_map_to_list.
    destruct (decide (is_Some (funcs !! oname))) as [Hs|Hs].
    + rewrite decide_True; [done|]. by apply elem_of_keys.
    + rewrite decide_False; [done|]. by rewrite elem_of_keys.
  - intros oname t. change (map ?f ?l) with (f <$> l).
    rewrite list_elem_of_fmap. by intros (entry & [= -> ->] & _).
Qed.

(** C10. For a port of [InTargets], [GetInPath] returns the final path of
    the target, streaming or not.  For a target whose final path and FIFO
    path are not empty, the loop body of [formatCommand] resolves the
    token [{i:port}] to the FIFO path when the target is streaming and to
    the final path otherwise; so, the FIFO path being another path than
    the final path, the two differ exactly for a streaming input. *)
Theorem GetInPath_and_placeholder t inPort tgt :
  InTargets t !! inPort = Some tgt →
  GetInPath t inPort = Ok (GetPath tgt) ∧
  ∀ m cmd outs params,
    m1 m = "i" → m2 m = inPort →
    GetPath tgt ≠ "" → GetFifoPath tgt ≠ "" →
    placeHolderValue m cmd (InTargets t) outs params
    = Ok (if doStream tgt then GetFifoPath tgt else GetPath tgt) ∧
    (GetFifoPath tgt ≠ GetPath tgt →
     placeHolderValue m cmd (InTargets t) outs params ≠ GetInPath t inPort
     ↔ doStream tgt = true).
Proof.
  intros Hl. assert (GetInPath t inPort = Ok (GetPath tgt)) as Hget.
  { unfold GetInPath. by rewrite Hl. }
  split; [done|]. intros m cmd outs params Hk Hn Hpath Hfifo.
  assert (placeHolderValue m cmd (InTargets t) outs params
          = Ok (if doStream tgt then GetFifoPath tgt else GetPath tgt)) as Hval.
  { apply placeHolderValue_Ok_iff. unfold resolvesTo, tokenValue.
    rewrite Hk, Hn, Hl. cbn. split; [done|]. split.
    - by destruct (doStream tgt).
    - intros _ tgt' [= <-]. done. }
  split; [done|]. intros Hdiff. rewrite Hval, Hget.
  destruct (doStream tgt); split; (done || congruence).
Qed.

End ConstructionClaims.

(** *** The claims on examples *)

Section ExecutorExamples.
#[local] Existing Instance upstreamPaths.

(** The scenario of the specification: the command runs, and then
    [/data/a.out] exists and [/data/a.out.tmp] does not. *)
Example Execute_scenario :
  let run := @Execute _ _ writingRuntime exampleTask (mkWorld ∅ []) in
  run.1 = Ok tt ∧
  events run.2
  = [CommandExecuted "tool -i /data/a.txt -o /data/a.out.tmp -p 3";
     Atomized "out" (NewFileTarget "/data/a.out"); DoneSent 1; DoneClosed] ∧
  elements (files run.2) = ["/data/a.out"].
Proof. vm_compute. done. Qed.

(** With the output in place, nothing runs. *)
Example Execute_scenario_skip :
  let run := @Execute _ _ writingRuntime exampleTask
               (mkWorld {["/data/a.out"]} []) in
  run.1 = Ok tt ∧ events run.2 = [DoneSent 1; DoneClosed].
Proof. vm_compute. done. Qed.

(** A shell command that ends with an error: [Done] is closed, and no
    signal was sent. *)
Example Execute_scenario_abort :
  let run := @Execute _ _ failingRuntime exampleTask (mkWorld ∅ []) in
  run.1 = Panic "exit status 1" ∧
  events run.2
  = [CommandExecuted "tool -i /data/a.txt -o /data/a.out.tmp -p 3"; DoneClosed].
Proof. vm_compute. done. Qed.

(** C3 on the scenario. *)
Lemma Execute_signals_done_once_witness :
  (@strategyResult _ writingRuntime exampleTask ∅).2 = None ∧
  (@Execute _ _ writingRuntime exampleTask (mkWorld ∅ [])).1 = Ok tt ∧
  ∃ before,
    events (@Execute _ _ writingRuntime exampleTask (mkWorld ∅ [])).2
    = [] ++ before ++ [DoneSent 1; DoneClosed] ∧
    ∀ ev, ev ∈ before → isDone ev = false.
Proof.
  split; [reflexivity|].
  apply (@Execute_signals_done_once _ _ writingRuntime exampleTask (mkWorld ∅ [])).
  right. reflexivity.
Defined.

(** C8 on the scenario. *)
Lemma NewSciTask_out_path_witness :
  NewSciTask "tool" examplePattern exampleIn exampleFuncs ∅ exampleParams ""
  = Ok exampleTask ∧
  ∃ tgt, OutTargets exampleTask !! "out" = Some tgt ∧
         GetPath tgt = "/data/a.out" ∧
         ∀ w, ∃ evs,
           events (@Execute _ _ writingRuntime exampleTask w).2 = events w ++ evs ∧
           ∀ tgt', Atomized "out" tgt' ∈ evs → tgt' = tgt.
Proof.
  assert (NewSciTask "tool" examplePattern exampleIn exampleFuncs ∅
            exampleParams "" = Ok exampleTask) as Hnew by reflexivity.
  split; [exact Hnew|].
  apply (@NewSciTask_out_path _ _ writingRuntime _ _ _ _ _ _ _ _ "out"
           (λ _, "/data/a.out") Hnew).
  reflexivity.
Defined.

(** A generator that reads the command of the task it is given reads the
    empty string, not the command of the task that is returned. *)
Example NewSciTask_generator_sees_no_command :
  (λ t : SciTask unit, OutTargets t !! "out")
    <$> (match NewSciTask "tool" "tool {o:out}" ∅
                 {[ "out" := λ t, Command t +:+ ".out" ]} ∅ ∅ "" with
         | Ok t => Some t
         | Panic _ => None
         end)
  = Some (Some (NewFileTarget ".out")).
Proof. reflexivity. Qed.

(** C10 on a streamed input. *)
Lemma GetInPath_and_placeholder_witness :
  InTargets streamedTask !! "in" = Some (mkFileTarget "/data/a.txt" true) ∧
  GetInPath streamedTask "in" = Ok "/data/a.txt" ∧
  placeHolderValue (mkSubmatch "{i:in}" "i" "in") "cat {i:in}"
    (InTargets streamedTask) ∅ ∅ = Ok "/data/a.txt.fifo".
Proof.
  assert (InTargets streamedTask !! "in" = Some (mkFileTarget "/data/a.txt" true))
    as Hl by reflexivity.
  split; [exact Hl|].
  destruct (GetInPath_and_placeholder streamedTask "in" _ Hl) as [Hget Hval].
  split; [exact Hget|].
  destruct (Hval (mkSubmatch "{i:in}" "i" "in") "cat {i:in}" ∅ ∅
              eq_refl eq_refl) as [Hres _]; [discriminate..|].
  exact Hres.
Defined.

End ExecutorExamples.

(** ** More on the command formatter *)

Section FormatterMore.
Context `{TargetPaths}.
Implicit Types (m : Submatch) (cmd prepend : string) (ms : list Submatch).
Implicit Types (ins outs : gmap string FileTarget) (params : gmap string string).

Lemma replacePlaceHolders_resolved ms cmd ins outs params :
  (∀ m, m ∈ ms → ∃ v, resolvesTo m ins outs params v) →
  ∃ r, replacePlaceHolders ms cmd ins outs params = Ok r.
Proof.
  revert cmd. induction ms as [|m ms IH]; intros cmd Hall; cbn [replacePlaceHolders].
  - by exists cmd.
  - destruct (Hall m) as [v Hv]; [left|].
    apply (placeHolderValue_Ok_iff m cmd) in Hv. rewrite Hv.
    cbn [mbind Result_bind]. apply IH. intros m' Hm'. apply Hall. by right.
Qed.

(** X1. [formatCommand] returns a command exactly when every token of the
    pattern resolves: its name is mapped, its value is not empty and, for
    an input, the final path is not empty.  In every other case it
    panics. *)
Theorem formatCommand_succeeds_iff cmd ins outs params prepend :
  (∃ r, formatCommand cmd ins outs params prepend = Ok r) ↔
  ∀ m, m ∈ FindAllStringSubmatch cmd →
    ∃ v, tokenValue (m1 m) (m2 m) ins outs params = Some v ∧ v ≠ "" ∧
         (m1 m = "i" → ∀ tgt, ins !! m2 m = Some tgt → GetPath tgt ≠ "").
Proof.
  unfold formatCommand. split.
  - intros [r Hr] m Hm.
    destruct (replacePlaceHolders _ cmd ins outs params) as [cmd'|msg] eqn:Hloop;
      [|done].
    apply (replacePlaceHolders_Ok _ m _ _ _ _ _ Hloop Hm).
  - intros Hall.
    destruct (replacePlaceHolders_resolved (FindAllStringSubmatch cmd) cmd
                ins outs params Hall) as [r ->].
    by eexists.
Qed.

Lemma formatCommand_fails_on_missing cmd ins outs params prepend m :
  m ∈ FindAllStringSubmatch cmd →
  (∀ v, ¬ resolvesTo m ins outs params v) →
  ∃ msg, formatCommand cmd ins outs params prepend = Panic msg.
Proof.
  intros Hm Hno.
  destruct (replacePlaceHolders_Panic (FindAllStringSubmatch cmd) m cmd
              ins outs params Hm Hno) as [msg Hmsg].
  exists msg. unfold formatCommand. by rewrite Hmsg.
Qed.

(** X2. An input whose final path is empty makes [formatCommand] panic,
    also when the input is streaming and the token would stand for its
    FIFO path. *)
Theorem formatCommand_rejects_empty_input_path cmd ins outs params prepend m tgt :
  m ∈ FindAllStringSubmatch cmd →
  m1 m = "i" → ins !! m2 m = Some tgt → GetPath tgt = "" →
  ∃ msg, formatCommand cmd ins outs params prepend = Panic msg.
Proof.
  intros Hm Hk Hl Hempty.
  apply (formatCommand_fails_on_missing cmd ins outs params prepend m Hm).
  intros v (_ & _ & Hpath). by destruct (Hpath Hk tgt Hl).
Qed.

Lemma placeHolderValue_outs_ext m cmd ins outs outs' params :
  (∀ name, path <$> outs !! name = path <$> outs' !! name) →
  placeHolderValue m cmd ins outs params = placeHolderValue m cmd ins outs' params.
Proof.
  intros Hpaths. unfold placeHolderValue.
  destruct (decide (m1 m = "o" ∨ m1 m = "os")) as [Hk|Hk]; [|done].
  specialize (Hpaths (m2 m)).
  destruct (outs !! m2 m) as [tgt|], (outs' !! m2 m) as [tgt'|];
    cbn in Hpaths; try done.
  injection Hpaths as Hp. unfold GetTempPath, GetFifoPath. by rewrite Hp.
Qed.

Lemma replacePlaceHolders_outs_ext ms cmd ins outs outs' params :
  (∀ name, path <$> outs !! name = path <$> outs' !! name) →
  replacePlaceHolders ms cmd ins outs params
  = replacePlaceHolders ms cmd ins outs' params.
Proof.
  intros Hpaths. revert cmd.
  induction ms as [|m ms IH]; intros cmd; cbn [replacePlaceHolders]; [done|].
  rewrite (placeHolderValue_outs_ext m cmd ins outs outs' params Hpaths).
  destruct (placeHolderValue m cmd ins outs' params); cbn [mbind Result_bind];
    [apply IH|done].
Qed.

(** X3. [formatCommand] never reads the streaming flag of an out-target:
    whether the command writes to the temporary path or to the FIFO path
    is decided by the kind of the token ([o] or [os]) alone.  Two
    out-target maps with the same ports and paths give the same result. *)
Theorem formatCommand_ignores_out_stream_flag cmd ins outs outs' params prepend :
  (∀ name, path <$> outs !! name = path <$> outs' !! name) →
  formatCommand cmd ins outs params prepend
  = formatCommand cmd ins outs' params prepend.
Proof.
  intros Hpaths. unfold formatCommand.
  by rewrite (replacePlaceHolders_outs_ext _ cmd ins outs outs' params Hpaths).
Qed.




End FormatterMore.

(** ** More on construction *)

Section ConstructionMore.
Context `{TargetPaths} {Strategy : Type}.
Implicit Types (t : SciTask Strategy).
Implicit Types (funcs : gmap string (PathFunc Strategy)).
Implicit Types (streams : gmap string bool).

Lemma createOutTargets_lookup t funcs streams oname :
  outTargets (createOutTargets t funcs streams) !! oname
  = outTargetOf t streams oname <$> funcs !! oname.
Proof.
  unfold createOutTargets. destruct (funcs !! oname) as [f|] eqn:Hf; cbn.
  - apply createOutTargets_lookup_in; [apply NoDup_fst_map_to_list|].
    by apply elem_of_map_to_list.
  - rewrite createOutTargets_lookup_notin; [done|].
    rewrite elem_of_keys, Hf. by intros [? ?].
Qed.

(** X5. The task that [NewSciTask] returns has one out-target for every
    port of [outPathFuncs] and none for any other port; the target of a
    port is streaming exactly when [outPortsDoStream] maps the port to
    true, and a flag for a port without a generator has no effect. *)
Theorem NewSciTask_out_targets name cmdPat ins funcs streams params prepend t
    oname :
  NewSciTask name cmdPat ins funcs streams params prepend = Ok t →
  OutTargets t !! oname
  = (λ f, {| path := f (newTask name ins params);
             doStream := default false (streams !! oname) |})
      <$> funcs !! oname.
Proof.
  intros (_ & _ & _ & _ & -> & _)%NewSciTask_Ok.
  apply createOutTargets_lookup.
Qed.

(** X6. A pattern with an [o] or [os] token for a port that has no
    generator makes [NewSciTask] panic: no task is constructed. *)
Theorem NewSciTask_fails_without_generator name cmdPat ins funcs streams
    params prepend m :
  m ∈ FindAllStringSubmatch cmdPat →
  m1 m = "o" ∨ m1 m = "os" →
  funcs !! m2 m = None →
  ∃ msg, NewSciTask (Strategy := Strategy) name cmdPat ins funcs streams
           params prepend = Panic msg.
Proof.
  intros Hm Hk Hf. unfold NewSciTask.
  destruct (formatCommand_fails_on_missing cmdPat ins
              (outTargets (createOutTargets (newTask name ins params) funcs streams))
              params prepend m Hm) as [msg ->].
  - intros v (Hv & _). unfold tokenValue in Hv.
    rewrite createOutTargets_lookup, Hf in Hv.
    by destruct Hk as [Hk|Hk]; rewrite Hk in Hv.
  - by exists msg.
Qed.

(** X7. The task that a generator is given has the name, the in-targets
    and the parameters of the task under construction: [GetInPath] on it
    returns the path of every input. *)
Theorem NewSciTask_generator_sees_inputs name ins funcs streams params
    oname t :
  (oname, t) ∈ generatorCalls name ins funcs streams params →
  Name t = name ∧ Params t = params ∧
  ∀ inPort tgt, ins !! inPort = Some tgt → GetInPath t inPort = Ok (GetPath tgt).
Proof.
  unfold generatorCalls, createOutTargets. rewrite createOutTargets_calls.
  cbn [calls app]. change (map ?f ?l) with (f <$> l).
  rewrite list_elem_of_fmap. intros (entry & [= -> ->] & _).
  split; [done|]. split; [done|]. intros inPort tgt Hl.
  unfold GetInPath. cbn. by rewrite Hl.
Qed.

(** X8. For a generator that reads only the name, the in-targets and the
    parameters of the task, the path of the out-target is the generator
    applied to the task that [NewSciTask] returns. *)
Theorem NewSciTask_out_path_of_result name cmdPat ins funcs streams params
    prepend t oname (f : PathFunc Strategy) :
  (∀ t1 t2, Name t1 = Name t2 → InTargets t1 = InTargets t2 →
            Params t1 = Params t2 → f t1 = f t2) →
  NewSciTask name cmdPat ins funcs streams params prepend = Ok t →
  funcs !! oname = Some f →
  GetPath <$> OutTargets t !! oname = Some (f t).
Proof.
  intros Hf Hnew Hl.
  pose proof (NewSciTask_Ok _ _ _ _ _ _ _ _ Hnew) as (HN & HI & HP & _ & HO & _).
  rewrite HO, createOutTargets_lookup, Hl. cbn. f_equal.
  unfold GetPath, outTargetOf. cbn. by apply Hf.
Qed.

End ConstructionMore.

(** ** More on the executor *)

Section ExecutorMore.
Context `{TargetPaths} {Strategy : Type} `{!Runtime Strategy}.
Implicit Types (t : SciTask Strategy) (w : World Strategy).
Implicit Types (fs : gset string) (tgt : FileTarget).
Implicit Types (l : list (string * FileTarget)).

(** *** The FIFO life cycle *)

Lemma createFifos_loop l w :
  forRange l tt (λ (_ : unit) (entry : string * FileTarget),
    let otgt := entry.2 in
    if doStream otgt then _ ← CreateFifo otgt; mret tt else mret tt) w
  = (Ok tt,
     {| files := files w ∪
                 list_to_set ((λ entry, GetFifoPath entry.2)
                                <$> filter (λ entry, doStream entry.2 = true) l);
        events := events w |}).
Proof.
  revert w. induction l as [|[oname tgt] l IH]; intros w.
  - cbn. destruct w as [fs evs]. cbn. f_equal. f_equal. set_solver.
  - cbn [forRange]. unfold mbind at 1. unfold Exec_bind at 1. cbn [snd].
    destruct (doStream tgt) eqn:Hs.
    + rewrite filter_cons_True by done.
      unfold mbind at 1, Exec_bind at 1, CreateFifo, mret, Exec_ret.
      destruct (bool_decide (GetFifoPath tgt ∈ files w)) eqn:Hin;
        rewrite IH; cbn; f_equal; f_equal;
        [apply bool_decide_eq_true in Hin|]; set_solver.
    + rewrite filter_cons_False by (cbn; congruence).
      cbn [mret Exec_ret]. apply IH.
Qed.

Lemma cleanUpFifos_loop l w :
  forRange l tt (λ (_ : unit) (entry : string * FileTarget),
    let tgt := entry.2 in
    if doStream tgt then _ ← RemoveFifo tgt; mret tt else mret tt) w
  = (Ok tt,
     {| files := files w ∖
                 list_to_set ((λ entry, GetFifoPath entry.2)
                                <$> filter (λ entry, doStream entry.2 = true) l);
        events := events w |}).
Proof.
  revert w. induction l as [|[oname tgt] l IH]; intros w.
  - cbn. destruct w as [fs evs]. cbn. f_equal. f_equal. set_solver.
  - cbn [forRange]. unfold mbind at 1. unfold Exec_bind at 1. cbn [snd].
    destruct (doStream tgt) eqn:Hs.
    + rewrite filter_cons_True by done.
      unfold mbind at 1, Exec_bind at 1, RemoveFifo, mret, Exec_ret.
      destruct (bool_decide (GetFifoPath tgt ∈ files w)) eqn:Hin;
        rewrite IH; cbn; f_equal; f_equal;
        [|apply bool_decide_eq_false in Hin]; set_solver.
    + rewrite filter_cons_False by (cbn; congruence).
      cbn [mret Exec_ret]. apply IH.
Qed.

Lemma elem_of_fifoPaths t p :
  p ∈ fifoPaths t ↔
  ∃ oname tgt, OutTargets t !! oname = Some tgt ∧ doStream tgt = true ∧
               p = GetFifoPath tgt.
Proof.
  unfold fifoPaths, fifosToCreate.
  rewrite elem_of_list_to_set, list_elem_of_fmap. split.
  - intros ([oname tgt] & -> & [Hs Hin%elem_of_map_to_list]%list_elem_of_filter).
    by exists oname, tgt.
  - intros (oname & tgt & Hl & Hs & ->). exists (oname, tgt). split; [done|].
    apply list_elem_of_filter. split; [done|]. by apply elem_of_map_to_list.
Qed.

Lemma createFifos_spec t w :
  createFifos t w
  = (Ok tt, {| files := files w ∪ fifoPaths t; events := events w |}).
Proof. apply createFifos_loop. Qed.

Lemma cleanUpFifos_spec t w :
  cleanUpFifos t w
  = (Ok tt, {| files := files w ∖ fifoPaths t; events := events w |}).
Proof. apply cleanUpFifos_loop. Qed.

(** X9. [createFifos] returns normally and adds to the files exactly the
    FIFO paths of the streaming out-targets of the task; a FIFO path that
    exists already is left as it is, and nothing else changes. *)
Theorem createFifos_files t w :
  createFifos t w
  = (Ok tt, {| files := files w ∪ fifoPaths t; events := events w |}) ∧
  ∀ p, p ∈ fifoPaths t ↔
       ∃ oname tgt, OutTargets t !! oname = Some tgt ∧ doStream tgt = true ∧
                    p = GetFifoPath tgt.
Proof. split; [apply createFifos_spec|apply elem_of_fifoPaths]. Qed.

(** X10. After [createFifos] no FIFO of the task is missing, so an
    [Execute] that follows skips the task only for an output that
    exists. *)
Theorem createFifos_then_Execute t w :
  let w' := (createFifos t w).2 in
  ¬ fifoMissing t (files w') ∧
  (skipCondition t (files w') ↔ outputExists t (files w')).
Proof.
  cbn zeta. rewrite createFifos_spec. cbn [snd files].
  assert (¬ fifoMissing t (files w ∪ fifoPaths t)) as Hno.
  { intros (oname & tgt & Hl & Hs & Hnotin). apply Hnotin.
    apply elem_of_union_r, elem_of_fifoPaths. by exists oname, tgt. }
  split; [done|]. unfold skipCondition. tauto.
Qed.

(** X11. [cleanUpFifos] removes exactly the FIFO paths of the streaming
    out-targets; run after [createFifos], in a world where none of these
    paths existed, it gives back the files as they were. *)
Theorem cleanUpFifos_after_createFifos t w :
  cleanUpFifos t w
  = (Ok tt, {| files := files w ∖ fifoPaths t; events := events w |}) ∧
  (fifoPaths t ## files w →
   files (cleanUpFifos t (createFifos t w).2).2 = files w).
Proof.
  split; [apply cleanUpFifos_spec|]. intros Hdisj.
  rewrite createFifos_spec, cleanUpFifos_spec. cbn [snd files]. set_solver.
Qed.

(** X12. [anyFifosExist] changes nothing and returns true exactly when
    the FIFO path of some streaming out-target exists. *)
Theorem anyFifosExist_spec t w :
  ∃ b, anyFifosExist t w = (Ok b, w) ∧
       (b = true ↔
        ∃ oname tgt, OutTargets t !! oname = Some tgt ∧ doStream tgt = true ∧
                     GetFifoPath tgt ∈ files w).
Proof.
  unfold anyFifosExist.
  erewrite (forRange_pure _ _ _
    (λ acc entry, if doStream entry.2 &&
                     bool_decide (GetFifoPath entry.2 ∈ files w)
                  then true else acc)).
  - eexists. split; [done|]. rewrite foldl_flag. cbn [orb].
    rewrite existsb_exists. split.
    + intros ([oname tgt] & Hin & Hp).
      apply list_elem_of_In, elem_of_map_to_list in Hin.
      apply andb_true_iff in Hp as [Hs Hp]. apply bool_decide_eq_true in Hp.
      by exists oname, tgt.
    + intros (oname & tgt & Hl & Hs & Hp). exists (oname, tgt). split.
      * by apply list_elem_of_In, elem_of_map_to_list.
      * cbn. rewrite Hs. cbn. by apply bool_decide_eq_true.
  - intros acc [oname tgt]. cbn. unfold mbind, Exec_bind, Stat, mret, Exec_ret.
    cbn. destruct (doStream tgt); cbn; [|done].
    by destruct (bool_decide (GetFifoPath tgt ∈ files w)).
Qed.

(** *** [Execute] *)

(** X13. [Execute] panics exactly when the task is not skipped and its
    execution strategy ends with an error, and then with that error. *)
Theorem Execute_panics_iff t w msg :
  (Execute t w).1 = Panic msg ↔
  ¬ skipCondition t (files w) ∧ (strategyResult t (files w)).2 = Some msg.
Proof.
  destruct (skipCondition_dec t (files w)) as [Hskip|Hrun].
  - rewrite (Execute_skip t w Hskip). cbn. split; [done|]. by intros [? _].
  - rewrite (Execute_run t w Hrun).
    destruct (strategyResult t (files w)).2 as [msg'|]; cbn.
    + split; [by intros [= ->]|by intros [_ [= ->]]].
    + split; [done|]. by intros [_ ?].
Qed.

(** X14. A task that is not skipped invokes one execution strategy, once:
    the custom strategy when there is one, and otherwise the shell on the
    command of the task. *)
Theorem Execute_invokes_one_strategy t w :
  ¬ skipCondition t (files w) →
  ∃ evs, events (Execute t w).2 = events w ++ evs ∧
         List.filter isInvocation evs
         = [match CustomExecute t with
            | Some f => CustomExecuted f
            | None => CommandExecuted (Command t)
            end].
Proof.
  intros Hrun. rewrite (Execute_run t w Hrun).
  assert (∀ l : list (string * FileTarget),
            List.filter isInvocation
              (map (λ entry, Atomized (Strategy := Strategy) entry.1 entry.2) l)
            = []) as Hat.
  { induction l as [|entry l IH]; [done|]. cbn. apply IH. }
  fold (strategyEvent t).
  assert (isInvocation (strategyEvent t) = true) as Hinv.
  { unfold strategyEvent. by destruct (CustomExecute t). }
  destruct (strategyResult t (files w)).2 as [msg|]; cbn [snd events];
    (eexists; split; [done|]).
  - cbn. by rewrite Hinv.
  - cbn. rewrite Hinv, List.filter_app, Hat. done.
Qed.

Lemma renamed_frame fs tgt p :
  p ≠ GetPath tgt → p ≠ GetTempPath tgt → p ∈ renamed fs tgt ↔ p ∈ fs.
Proof. unfold renamed. case_bool_decide; set_solver. Qed.

Lemma renamed_loop_frame l fs p :
  (∀ entry, entry ∈ l → p ≠ GetPath entry.2 ∧ p ≠ GetTempPath entry.2) →
  p ∈ foldl renamed fs l.*2 ↔ p ∈ fs.
Proof.
  revert fs. induction l as [|entry l IH]; intros fs Hl; [done|].
  cbn. rewrite IH by (intros; apply Hl; by right).
  apply renamed_frame; apply Hl; left.
Qed.

(** X15. [Execute] itself creates and removes no path but final and
    temporary paths of non-streaming out-targets: any other path exists
    afterwards exactly when it existed before (for a skipped task) or
    when the execution strategy left it (for a task that ran, also when
    the strategy ended with an error). *)
Theorem Execute_frame t w p :
  ¬ outputPath t p →
  (skipCondition t (files w) →
     p ∈ files (Execute t w).2 ↔ p ∈ files w) ∧
  (¬ skipCondition t (files w) →
     p ∈ files (Execute t w).2 ↔ p ∈ (strategyResult t (files w)).1).
Proof.
  intros Hp. split.
  - intros Hskip. by rewrite (Execute_skip t w Hskip).
  - intros Hrun. rewrite (Execute_run t w Hrun).
    destruct (strategyResult t (files w)).2 as [msg|]; cbn [snd files]; [done|].
    apply renamed_loop_frame. intros [oname tgt] [Hl Hs]%elem_of_filesToAtomize.
    cbn. split; intros ->; apply Hp; exists oname, tgt; auto.
Qed.

(** One rename, seen from the target [tgt]: a target with the same path
    publishes it, a target that shares no path with it leaves it alone. *)
Lemma renamed_same fs tgt tgt' :
  path tgt' = path tgt → GetTempPath tgt ≠ GetPath tgt →
  GetTempPath tgt ∈ fs ∨ (GetPath tgt ∈ fs ∧ GetTempPath tgt ∉ fs) →
  GetPath tgt ∈ renamed fs tgt' ∧ GetTempPath tgt ∉ renamed fs tgt'.
Proof.
  unfold renamed, GetPath, GetTempPath. intros -> Hne Hfs.
  case_bool_decide; set_solver.
Qed.

Lemma renamed_other fs tgt tgt' :
  GetTempPath tgt' ≠ GetTempPath tgt → GetTempPath tgt' ≠ GetPath tgt →
  GetPath tgt' ≠ GetTempPath tgt →
  (GetTempPath tgt ∈ fs → GetTempPath tgt ∈ renamed fs tgt') ∧
  (GetPath tgt ∈ fs ∧ GetTempPath tgt ∉ fs →
   GetPath tgt ∈ renamed fs tgt' ∧ GetTempPath tgt ∉ renamed fs tgt').
Proof. unfold renamed. intros ? ? ?. case_bool_decide; set_solver. Qed.

Lemma renamed_loop_publishes l fs tgt :
  GetTempPath tgt ≠ GetPath tgt →
  (∀ entry, entry ∈ l → path entry.2 ≠ path tgt →
     GetTempPath entry.2 ≠ GetTempPath tgt ∧
     GetTempPath entry.2 ≠ GetPath tgt ∧
     GetPath entry.2 ≠ GetTempPath tgt) →
  (GetPath tgt ∈ fs ∧ GetTempPath tgt ∉ fs ∨
   GetTempPath tgt ∈ fs ∧ ∃ entry, entry ∈ l ∧ path entry.2 = path tgt) →
  GetPath tgt ∈ foldl renamed fs l.*2 ∧
  GetTempPath tgt ∉ foldl renamed fs l.*2.
Proof.
  intros Hne. revert fs. induction l as [|entry l IH]; intros fs Hl Hfs.
  { destruct Hfs as [?|[_ (entry & ?%elem_of_nil & _)]]; done. }
  cbn. apply IH; [intros; apply Hl; [by right|done]|].
  destruct (decide (path entry.2 = path tgt)) as [Heq|Hneq].
  - left. apply renamed_same; [done..|]. tauto.
  - destruct (Hl entry) as (H1 & H2 & H3); [left|done|].
    destruct (renamed_other fs tgt entry.2 H1 H2 H3) as [Htemp Hdone].
    destruct Hfs as [Hd|[Ht (entry' & Hin & Heq)]]; [left; auto|].
    right. split; [auto|]. exists entry'. split; [|done].
    apply elem_of_cons in Hin as [->|Hin]; done.
Qed.

(** X16. After a run whose strategy returned without an error and left
    the temporary file of a non-streaming out-target, the final path of
    the target exists and its temporary path does not, provided that the
    two paths differ and that no out-target with another path shares a
    final or temporary path with it. *)
Theorem Execute_publishes_output t w oname tgt :
  ¬ skipCondition t (files w) →
  (strategyResult t (files w)).2 = None →
  OutTargets t !! oname = Some tgt → doStream tgt = false →
  GetTempPath tgt ∈ (strategyResult t (files w)).1 →
  GetTempPath tgt ≠ GetPath tgt →
  (∀ oname' tgt', OutTargets t !! oname' = Some tgt' → doStream tgt' = false →
     path tgt' ≠ path tgt →
     GetTempPath tgt' ≠ GetTempPath tgt ∧ GetTempPath tgt' ≠ GetPath tgt ∧
     GetPath tgt' ≠ GetTempPath tgt) →
  GetPath tgt ∈ files (Execute t w).2 ∧ GetTempPath tgt ∉ files (Execute t w).2.
Proof.
  intros Hrun Herr Hl Hs Htemp Hne Hothers.
  rewrite (Execute_run t w Hrun), Herr. cbn [snd files].
  apply renamed_loop_publishes; [done| |].
  - intros [o tg] [Hl' Hs']%elem_of_filesToAtomize. cbn. by apply (Hothers o).
  - right. split; [done|]. exists (oname, tgt). split; [|done].
    by apply elem_of_filesToAtomize.
Qed.

Lemma renamed_loop_outputExists t l fs :
  (∀ entry, entry ∈ l → entry ∈ filesToAtomize t) →
  outputExists t fs → outputExists t (foldl renamed fs l.*2).
Proof.
  revert fs. induction l as [|[oname tgt] l IH]; intros fs Hl Hout; [done|].
  cbn. apply IH; [intros; apply Hl; by right|].
  unfold renamed. case_bool_decide; [|done].
  assert ((oname, tgt) ∈ filesToAtomize t) as [Hlk Hs]%elem_of_filesToAtomize
    by (apply Hl; left).
  exists oname, tgt. split; [done|]. split; [done|]. left. set_solver.
Qed.

(** X17. Once a run has left a final or a temporary file of one of its
    non-streaming out-targets, a task with the same out-targets is
    skipped on the files that [Execute] leaves. *)
Theorem Execute_makes_rerun_skip t t' w :
  OutTargets t' = OutTargets t →
  ¬ skipCondition t (files w) →
  (strategyResult t (files w)).2 = None →
  outputExists t (strategyResult t (files w)).1 →
  skipCondition t' (files (Execute t w).2).
Proof.
  intros Hsame Hrun Herr Hout. left.
  rewrite (Execute_run t w Hrun), Herr. cbn [snd files].
  assert (outputExists t (foldl renamed (strategyResult t (files w)).1
                            (filesToAtomize t).*2)) as Hafter
    by (by apply renamed_loop_outputExists).
  unfold outputExists in *. by rewrite Hsame.
Qed.

(** X18. A task without out-targets is never skipped: every [Execute]
    invokes its strategy. *)
Theorem Execute_without_outputs_runs t w :
  OutTargets t = ∅ →
  ∃ evs, events (Execute t w).2 = events w ++ evs ∧
         head evs = Some (strategyEvent t).
Proof.
  intros Hempty.
  assert (¬ skipCondition t (files w)) as Hrun.
  { unfold skipCondition, outputExists, fifoMissing. rewrite Hempty.
    intros [(o & tg & Hl & _)|(o & tg & Hl & _)];
      by rewrite lookup_empty in Hl. }
  rewrite (Execute_run t w Hrun).
  destruct (strategyResult t (files w)).2; cbn [snd events];
    (eexists; split; [done|]); done.
Qed.

Lemma renamed_loop_nothing l fs :
  (∀ entry, entry ∈ l → GetTempPath entry.2 ∉ fs) →
  foldl renamed fs l.*2 = fs.
Proof.
  induction l as [|entry l IH]; intros Hl; [done|]. cbn.
  assert (renamed fs entry.2 = fs) as ->.
  { unfold renamed. rewrite bool_decide_eq_false_2; [done|]. apply Hl. left. }
  apply IH. intros. apply Hl. by right.
Qed.

(** X19. When the strategy returns without an error but leaves no
    temporary file of a non-streaming out-target, no rename takes place
    and [Execute] still returns normally and signals completion: the
    files are those the strategy left. *)
Theorem Execute_nothing_written t w :
  ¬ skipCondition t (files w) →
  (strategyResult t (files w)).2 = None →
  (∀ oname tgt, OutTargets t !! oname = Some tgt → doStream tgt = false →
     GetTempPath tgt ∉ (strategyResult t (files w)).1) →
  (Execute t w).1 = Ok tt ∧
  files (Execute t w).2 = (strategyResult t (files w)).1 ∧
  ∃ before, events (Execute t w).2 = events w ++ before ++ [DoneSent 1; DoneClosed].
Proof.
  intros Hrun Herr Hnone. rewrite (Execute_run t w Hrun), Herr.
  cbn [fst snd files events]. split; [done|]. split.
  - apply renamed_loop_nothing.
    intros [oname tgt] [Hl Hs]%elem_of_filesToAtomize. by eapply Hnone.
  - by eexists (_ :: _).
Qed.

End ExecutorMore.

(** *** The further properties on examples *)

Section MoreExamples.
#[local] Existing Instance upstreamPaths.

Lemma formatCommand_rejects_empty_input_path_witness :
  GetFifoPath {| path := ""; doStream := true |} = ".fifo" ∧
  ∃ msg, formatCommand "cat {i:in}" unnamedIn ∅ ∅ "" = Panic msg.
Proof.
  split; [reflexivity|].
  apply (formatCommand_rejects_empty_input_path "cat {i:in}" unnamedIn ∅ ∅ ""
           (mkSubmatch "{i:in}" "i" "in") {| path := ""; doStream := true |});
    [left|reflexivity..].
Defined.

Lemma formatCommand_ignores_out_stream_flag_witness :
  formatCommand examplePattern exampleIn exampleOut exampleParams ""
  = formatCommand examplePattern exampleIn streamedOut exampleParams "".
Proof.
  apply (formatCommand_ignores_out_stream_flag examplePattern exampleIn
           exampleOut streamedOut exampleParams "").
  intros name. unfold exampleOut, streamedOut.
  destruct (decide (name = "out")) as [->|Hne]; [reflexivity|].
  rewrite !lookup_singleton_ne by done. reflexivity.
Defined.


Lemma NewSciTask_out_targets_witness :
  NewSciTask "tool" examplePattern exampleIn exampleFuncs ∅ exampleParams ""
  = Ok exampleTask ∧
  OutTargets exampleTask !! "out" = Some (NewFileTarget "/data/a.out") ∧
  OutTargets exampleTask !! "log" = None.
Proof.
  assert (NewSciTask "tool" examplePattern exampleIn exampleFuncs ∅
            exampleParams "" = Ok exampleTask) as Hnew by reflexivity.
  split; [exact Hnew|]. split.
  - exact (NewSciTask_out_targets _ _ _ _ _ _ _ _ "out" Hnew).
  - exact (NewSciTask_out_targets _ _ _ _ _ _ _ _ "log" Hnew).
Defined.

Lemma NewSciTask_fails_without_generator_witness :
  mkSubmatch "{o:log}" "o" "log" ∈ FindAllStringSubmatch "tool > {o:log}" ∧
  ∃ msg, NewSciTask (Strategy := unit) "tool" "tool > {o:log}" exampleIn
           exampleFuncs ∅ exampleParams "" = Panic msg.
Proof.
  assert (mkSubmatch "{o:log}" "o" "log"
          ∈ FindAllStringSubmatch "tool > {o:log}") as Hm by left.
  split; [exact Hm|].
  apply (NewSciTask_fails_without_generator "tool" "tool > {o:log}" exampleIn
           exampleFuncs ∅ exampleParams "" _ Hm); [by left|reflexivity].
Defined.

Lemma NewSciTask_generator_sees_inputs_witness :
  ("out", newTask "copy" exampleIn ∅)
    ∈ generatorCalls "copy" exampleIn copyFuncs ∅ ∅ ∧
  GetInPath (newTask (Strategy := unit) "copy" exampleIn ∅) "in"
  = Ok "/data/a.txt".
Proof.
  assert (("out", newTask "copy" exampleIn ∅)
          ∈ generatorCalls "copy" exampleIn copyFuncs ∅ ∅) as Hcall by left.
  split; [exact Hcall|].
  destruct (NewSciTask_generator_sees_inputs _ _ _ _ _ _ _ Hcall) as (_ & _ & Hin).
  apply (Hin "in" (NewFileTarget "/data/a.txt")). reflexivity.
Defined.

Lemma NewSciTask_out_path_of_result_witness :
  NewSciTask "copy" "cp {i:in} {o:out}" exampleIn copyFuncs ∅ ∅ ""
  = Ok copyTask ∧
  GetPath <$> OutTargets copyTask !! "out" = Some "/data/a.txt.out".
Proof.
  assert (NewSciTask "copy" "cp {i:in} {o:out}" exampleIn copyFuncs ∅ ∅ ""
          = Ok copyTask) as Hnew by reflexivity.
  split; [exact Hnew|].
  assert (∀ t1 t2 : SciTask unit,
            Name t1 = Name t2 → InTargets t1 = InTargets t2 →
            Params t1 = Params t2 →
            default "" (path <$> InTargets t1 !! "in") +:+ ".out"
            = default "" (path <$> InTargets t2 !! "in") +:+ ".out") as Hf.
  { intros t1 t2 _ Hin _. by rewrite Hin. }
  exact (NewSciTask_out_path_of_result "copy" "cp {i:in} {o:out}" exampleIn
           copyFuncs ∅ ∅ "" copyTask "out" _ Hf Hnew eq_refl).
Defined.

(** The example task is not skipped on the empty disk. *)
Lemma exampleTask_runs : ¬ skipCondition exampleTask ∅.
Proof.
  intros Hskip%skipCondition_bool. vm_compute in Hskip. discriminate.
Defined.

Lemma Execute_invokes_one_strategy_witness :
  ∃ evs, events (@Execute _ _ writingRuntime exampleTask (mkWorld ∅ [])).2
         = [] ++ evs ∧
         List.filter isInvocation evs
         = [CommandExecuted "tool -i /data/a.txt -o /data/a.out.tmp -p 3"].
Proof.
  apply (@Execute_invokes_one_strategy _ _ writingRuntime exampleTask
           (mkWorld ∅ [])).
  apply exampleTask_runs.
Defined.

Lemma Execute_frame_witness :
  (@Execute _ _ writingRuntime exampleTask (mkWorld {["/data/other"]} [])).1
  = Ok tt ∧
  ("/data/other"
     ∈ files (@Execute _ _ writingRuntime exampleTask
                (mkWorld {["/data/other"]} [])).2 ↔
   "/data/other"
     ∈ (@strategyResult _ writingRuntime exampleTask {["/data/other"]}).1).
Proof.
  split; [reflexivity|].
  assert (¬ outputPath exampleTask "/data/other") as Hno.
  { intros (oname & tgt & Hl & _ & Hp). unfold exampleTask in Hl. cbn in Hl.
    unfold exampleOut in Hl. apply lookup_singleton_Some in Hl as [_ <-].
    destruct Hp as [Hp|Hp]; discriminate Hp. }
  destruct (@Execute_frame _ _ writingRuntime exampleTask
              (mkWorld {["/data/other"]} []) "/data/other" Hno) as [_ Hrun].
  apply Hrun.
  intros Hskip%skipCondition_bool. vm_compute in Hskip. discriminate.
Defined.

Lemma Execute_publishes_output_witness :
  "/data/a.out" ∈ files (@Execute _ _ writingRuntime exampleTask (mkWorld ∅ [])).2 ∧
  "/data/a.out.tmp" ∉ files (@Execute _ _ writingRuntime exampleTask (mkWorld ∅ [])).2.
Proof.
  refine (@Execute_publishes_output _ _ writingRuntime exampleTask (mkWorld ∅ [])
            "out" (NewFileTarget "/data/a.out") _ _ _ _ _ _ _);
    [apply exampleTask_runs|reflexivity|reflexivity|reflexivity| |discriminate|].
  - cbn. set_solver.
  - intros oname' tgt' Hl _ Hne. unfold exampleTask in Hl. cbn in Hl.
    unfold exampleOut in Hl. apply lookup_singleton_Some in Hl as [_ <-]. by destruct Hne.
Defined.

Lemma Execute_makes_rerun_skip_witness :
  skipCondition exampleTask
    (files (@Execute _ _ writingRuntime exampleTask (mkWorld ∅ [])).2).
Proof.
  apply (@Execute_makes_rerun_skip _ _ writingRuntime exampleTask exampleTask
           (mkWorld ∅ []));
    [reflexivity|apply exampleTask_runs|reflexivity|].
  apply outputExistsB_true. reflexivity.
Defined.

Lemma Execute_without_outputs_runs_witness :
  ∃ evs, events (@Execute _ _ writingRuntime streamedTask (mkWorld ∅ [])).2
         = [] ++ evs ∧
         head evs = Some (CommandExecuted "tool -i /data/a.txt.fifo").
Proof.
  apply (@Execute_without_outputs_runs _ _ writingRuntime streamedTask
           (mkWorld ∅ [])).
  reflexivity.
Defined.

Lemma Execute_nothing_written_witness :
  (@Execute _ _ idleRuntime exampleTask (mkWorld ∅ [])).1 = Ok tt ∧
  files (@Execute _ _ idleRuntime exampleTask (mkWorld ∅ [])).2 = ∅ ∧
  ∃ before, events (@Execute _ _ idleRuntime exampleTask (mkWorld ∅ [])).2
            = [] ++ before ++ [DoneSent 1; DoneClosed].
Proof.
  apply (@Execute_nothing_written _ _ idleRuntime exampleTask (mkWorld ∅ []));
    [apply exampleTask_runs|reflexivity|].
  intros oname tgt _ _. cbn. set_solver.
Defined.

(** The FIFO life cycle on a task with a streaming out-target: the task
    is skipped before [createFifos] and runs after it, and
    [cleanUpFifos] removes the pipe again. *)
Example fifo_life_cycle :
  let w0 := mkWorld (Strategy := unit) ∅ [] in
  let w1 := (@createFifos _ unit producerTask w0).2 in
  events (@Execute _ _ idleRuntime producerTask w0).2 = [DoneSent 1; DoneClosed] ∧
  elements (files w1) = ["/data/a.out.fifo"] ∧
  events (@Execute _ _ idleRuntime producerTask w1).2
  = [CommandExecuted "gen > /data/a.out.fifo"; DoneSent 1; DoneClosed] ∧
  elements (files (@cleanUpFifos _ unit producerTask w1).2) = [].
Proof. vm_compute. done. Qed.

End MoreExamples.
